(** * RobotClient: resource discovery and connection lifecycle

    A shallow embedding of [viam/robot/client.py] (class [RobotClient]) and
    the properties of its refresh protocol, accessors and teardown.

    Python objects whose identity or mutation matters are modelled with an
    explicit store: every object creation draws a fresh identifier from a
    counter, list objects live in a heap of lists, and the asyncio event loop
    is the finite map of its tasks.  Exceptions are values of [exn]; a method is a
    state transformer that returns, raises, or blocks on a held lock. *)

From stdpp Require Import gmap strings list fin_maps.
From Stdlib Require Import ZArith.

#[local] Set Warnings "-clear-no-such-hyp".

Local Open Scope string_scope.
Local Open Scope list_scope.
Local Open Scope nat_scope.

(** ** Data model *)

(** [viam.proto.api.common.ResourceName]: a protobuf message, compared
    structurally.  [rn_type], [rn_subtype] and [rn_name] are the attributes
    [type], [subtype] and [name] read by the client. *)
Record ResourceName := {
  rn_type : string;
  rn_subtype : string;
  rn_name : string }.

#[global] Instance ResourceName_eq_dec : EqDecision ResourceName.
Proof. solve_decision. Defined.

(** A [grpclib.client.Channel] object, known by its identity. *)
Definition Channel := nat.

(** Modelled from the spec: [ComponentBase] (viam/components/component_base.py
    is not part of the sources at hand).  A client proxy is an opaque handle
    bound to a resource name and a channel; [proxy_class] names the factory
    that produced it and [proxy_id] is the identity of the Python object. *)
Record ComponentBase := {
  proxy_id : nat;
  proxy_class : string;
  proxy_name : string;
  proxy_channel : Channel }.

(** Modelled from the spec: [ResourceManager]
    (viam/components/resource_manager.py is not part of the sources at hand):
    a mapping from resource name to client proxy.  [mgr_id] is the identity of
    the manager object. *)
Record ResourceManager := {
  mgr_id : nat;
  components : gmap string ComponentBase }.

(** Modelled from the spec: the Resource Registry, a process-wide mapping from
    a subtype to a factory, here the name of the client class it creates. *)
Abbreviation Registry := (gmap string string).

(** [viam.services.ServiceType]: [st_name] is its [name] attribute. *)
Record ServiceType := { st_name : string }.

(** The service client made by [ServiceType.with_channel]. *)
Record Service := {
  svc_id : nat;
  svc_type : string;
  svc_channel : Channel }.

Inductive TaskState := Pending | Cancelled.

#[global] Instance TaskState_eq_dec : EqDecision TaskState.
Proof. solve_decision. Defined.

(** An [asyncio.Task]; the event loop maps the identity of a task to it. *)
Record Task := {
  task_name : string;
  task_state : TaskState }.

Inductive exn :=
| ViamError (about : ResourceName)
| ComponentNotFoundError (kind : string) (what : string)
| ServiceNotImplementedError (service : string)
| RuntimeError
| RpcError (msg : string).

Inductive LogLevel := DEBUG | WARNING | ERROR.

(** What an execution leaves behind: log records and lock operations. *)
Inductive Event :=
| EvLog (lvl : LogLevel) (msg : string)
| EvAcquire
| EvRelease.

(** Everything outside the client object: the allocation counter, the global
    registry, the heap of Python list objects, the channels closed so far, the
    tasks of the event loop and the trace (most recent event first). *)
Record World := {
  next_id : nat;
  registry : Registry;
  lists : gmap nat (list ResourceName);
  closed : gset Channel;
  tasks : gmap nat Task;
  trace : list Event }.

(** [RobotClient.Options] *)
Record Options := {
  refresh_interval : Z;
  dial_options : option nat }.

(** The attributes of a [RobotClient] object.  [_resource_names] is a
    reference into the heap of lists; [_lock] tells whether the
    [threading.Lock] is held; [_refresh_task] is the identity of the task. *)
Record RobotClient := {
  _channel : Channel;
  _client : Channel;
  _manager : ResourceManager;
  _lock : bool;
  _resource_names : nat;
  _should_close_channel : bool;
  _refresh_task : option nat }.

(** ** Outcomes and the method monad *)

Inductive outcome (A : Type) :=
| Return (a : A)
| Raise (e : exn)
| Deadlock.
Arguments Return {A} a.
Arguments Raise {A} e.
Arguments Deadlock {A}.

Definition M (St A : Type) : Type := St → outcome A * St.

#[global] Instance M_ret {St} : MRet (M St) := λ A a s, (Return a, s).

#[global] Instance M_bind {St} : MBind (M St) := λ A B k m s,
  match m s with
  | (Return a, s') => k a s'
  | (Raise e, s') => (Raise e, s')
  | (Deadlock, s') => (Deadlock, s')
  end.

Definition raise {St A} (e : exn) : M St A := λ s, (Raise e, s).
Definition gets {St A} (f : St → A) : M St A := λ s, (Return (f s), s).
Definition modify {St} (f : St → St) : M St unit := λ s, (Return tt, f s).

(** A method of a client runs on the world and on [self]. *)
Abbreviation Meth := (M (World * RobotClient)).

Definition world {A} (m : M World A) : Meth A := λ '(w, self),
  let '(r, w') := m w in (r, (w', self)).

Definition self_get {A} (f : RobotClient → A) : Meth A := gets (λ s, f s.2).
Definition self_set (f : RobotClient → RobotClient) : Meth unit :=
  modify (λ s, (s.1, f s.2)).

(** ** World operations *)

Definition set_next_id (n : nat) (w : World) : World :=
  {| next_id := n; registry := registry w; lists := lists w;
     closed := closed w; tasks := tasks w; trace := trace w |}.
Definition set_lists (h : gmap nat (list ResourceName)) (w : World) : World :=
  {| next_id := next_id w; registry := registry w; lists := h;
     closed := closed w; tasks := tasks w; trace := trace w |}.
Definition set_closed (c : gset Channel) (w : World) : World :=
  {| next_id := next_id w; registry := registry w; lists := lists w;
     closed := c; tasks := tasks w; trace := trace w |}.
Definition set_tasks (ts : gmap nat Task) (w : World) : World :=
  {| next_id := next_id w; registry := registry w; lists := lists w;
     closed := closed w; tasks := ts; trace := trace w |}.
Definition set_trace (t : list Event) (w : World) : World :=
  {| next_id := next_id w; registry := registry w; lists := lists w;
     closed := closed w; tasks := tasks w; trace := t |}.

(** Object creation: the next free identity. *)
Definition alloc : M World nat := λ w, (Return (next_id w), set_next_id (S (next_id w)) w).

Definition emit (e : Event) : M World unit := modify (λ w, set_trace (e :: trace w) w).

(** [LOGGER.debug], [LOGGER.warn] *)
Definition log (lvl : LogLevel) (msg : string) : M World unit := emit (EvLog lvl msg).

(** A new Python list object holding [l]. *)
Definition new_list (l : list ResourceName) : M World nat :=
  r ← alloc; modify (λ w, set_lists (<[r := l]> (lists w)) w);; mret r.

(** The contents of the list object at [r]. *)
Definition list_at (w : World) (r : nat) : list ResourceName := default [] (lists w !! r).

(** In-place mutation of the list object at [r] by its holder ([append],
    [pop], [clear], item assignment, ...): the contents become [f] of them. *)
Definition list_mutate (r : nat) (f : list ResourceName → list ResourceName) (w : World) : World :=
  set_lists (<[r := f (list_at w r)]> (lists w)) w.

(** ** Client attribute updates *)

Definition set__manager (m : ResourceManager) (c : RobotClient) : RobotClient :=
  {| _channel := _channel c; _client := _client c; _manager := m; _lock := _lock c;
     _resource_names := _resource_names c;
     _should_close_channel := _should_close_channel c; _refresh_task := _refresh_task c |}.
Definition set__lock (b : bool) (c : RobotClient) : RobotClient :=
  {| _channel := _channel c; _client := _client c; _manager := _manager c; _lock := b;
     _resource_names := _resource_names c;
     _should_close_channel := _should_close_channel c; _refresh_task := _refresh_task c |}.
Definition set__resource_names (r : nat) (c : RobotClient) : RobotClient :=
  {| _channel := _channel c; _client := _client c; _manager := _manager c; _lock := _lock c;
     _resource_names := r;
     _should_close_channel := _should_close_channel c; _refresh_task := _refresh_task c |}.
Definition set__should_close_channel (b : bool) (c : RobotClient) : RobotClient :=
  {| _channel := _channel c; _client := _client c; _manager := _manager c; _lock := _lock c;
     _resource_names := _resource_names c;
     _should_close_channel := b; _refresh_task := _refresh_task c |}.
Definition set__refresh_task (t : option nat) (c : RobotClient) : RobotClient :=
  {| _channel := _channel c; _client := _client c; _manager := _manager c; _lock := _lock c;
     _resource_names := _resource_names c;
     _should_close_channel := _should_close_channel c; _refresh_task := t |}.

(** The cached name list of a client: the contents of the list object that
    [self._resource_names] refers to. *)
Definition cached_names (w : World) (self : RobotClient) : list ResourceName :=
  list_at w (_resource_names self).

(** [with self._lock: body].  A [threading.Lock] is not reentrant: entering
    while it is held blocks.  The lock is released when the body leaves,
    normally or by an exception. *)
Definition with_lock {A} (body : Meth A) : Meth A := λ '(w, self),
  if _lock self then (Deadlock, (w, self))
  else
    let '(r, (w', self')) := body (set_trace (EvAcquire :: trace w) w, set__lock true self) in
    (r, (set_trace (EvRelease :: trace w') w', set__lock false self')).

(** [try: body except E: handler], where [handles] tells the exceptions of
    class [E].  What the body did before it raised stays done. *)
Definition try_except {St A} (body : M St A) (handles : exn → bool)
    (handler : exn → M St A) : M St A := λ s,
  match body s with
  | (Raise e, s') => if handles e then handler e s' else (Raise e, s')
  | r => r
  end.

(** [for x in l: acc = body(acc, x)] *)
Fixpoint for_each {St A B} (l : list A) (body : B → A → M St B) (acc : B) : M St B :=
  match l with
  | [] => mret acc
  | x :: l' => acc' ← body acc x; for_each l' body acc'
  end.

Definition is_ComponentNotFoundError (e : exn) : bool :=
  match e with ComponentNotFoundError _ _ => true | _ => false end.
Definition is_RuntimeError (e : exn) : bool :=
  match e with RuntimeError => true | _ => false end.

(** ** Collaborators of the client *)

(** Modelled from the spec: [Registry.lookup(subtype)], which fails with a
    not-found condition when no factory is registered for the subtype. *)
Definition Registry_lookup (subtype : string) : M World string := λ w,
  match registry w !! subtype with
  | Some factory => (Return factory, w)
  | None => (Raise (ComponentNotFoundError "component" subtype), w)
  end.

(** Modelled from the spec: [Factory.create_rpc_client(name, channel)], a new
    client proxy bound to the name and the channel. *)
Definition create_rpc_client (factory : string) (name : string) (channel : Channel)
    : M World ComponentBase :=
  i ← alloc;
  mret {| proxy_id := i; proxy_class := factory; proxy_name := name;
          proxy_channel := channel |}.

(** Modelled from the spec: [ResourceManager()], an empty manager. *)
Definition new_ResourceManager : M World ResourceManager :=
  i ← alloc; mret {| mgr_id := i; components := ∅ |}.

(** Modelled from the spec: [ResourceManager.register(component)] enters the
    proxy in the mapping under its name. *)
Definition register (component : ComponentBase) (manager : ResourceManager) : ResourceManager :=
  {| mgr_id := mgr_id manager;
     components := <[proxy_name component := component]> (components manager) |}.

(** Modelled from the spec: [ResourceManager.get_component(of_type, name)]
    looks the proxy up by name and fails with not-found when it is absent. *)
Definition manager_get_component {St} (manager : ResourceManager) (name : string)
    : M St ComponentBase :=
  match components manager !! name with
  | Some c => mret c
  | None => raise (ComponentNotFoundError "component" name)
  end.

(** [d1 != d2] on the [components] dictionaries: two dictionaries are equal
    when they have the same keys and equal values, and client proxies, being
    opaque handles, are equal when they are the same object. *)
Definition components_ne (m1 m2 : ResourceManager) : bool :=
  bool_decide ((proxy_id <$> components m1) ≠ (proxy_id <$> components m2)).

(** [service_type.with_channel(channel)]: a new service client. *)
Definition ServiceType_with_channel (service_type : ServiceType) (channel : Channel)
    : M World Service :=
  i ← alloc;
  mret {| svc_id := i; svc_type := st_name service_type; svc_channel := channel |}.

(** The answer of an awaited call that the client does not control: the
    exception it raised or the value it gave. *)
Definition awaited {St A} (answer : exn + A) : M St A :=
  match answer with inl e => raise e | inr a => mret a end.

(** ** RobotClient.refresh *)

(** The body of the loop of [refresh] (lines 122-130) for one [rname]. *)
Definition refresh_rname (channel : Channel) (manager : ResourceManager)
    (rname : ResourceName) : M World ResourceManager :=
  if decide (rn_type rname ≠ "component") then mret manager
  else if decide (rn_subtype rname = "remote") then mret manager
  else
    let subtype := rn_subtype rname in
    try_except
      (factory ← Registry_lookup subtype;
       component ← create_rpc_client factory (rn_name rname) channel;
       mret (register component manager))
      is_ComponentNotFoundError
      (λ _, log WARNING ("Component of type " +:+ subtype +:+ " is not implemented");;
            mret manager).

(** Lines 120-130 of [refresh]: the new manager and the loop that fills it. *)
Definition refresh_build (channel : Channel) (resource_names : list ResourceName)
    : M World ResourceManager :=
  manager ← new_ResourceManager;
  for_each resource_names (refresh_rname channel) manager.

(** [refresh], from the point where the awaited [ResourceNames] call answers.
    The list made from the response is local to the call until line 132
    stores it in the client; it enters the heap there. *)
Definition refresh (response : exn + list ResourceName) : Meth unit :=
  resource_names ← awaited response;
  cached ← gets (λ s, cached_names s.1 s.2);
  if decide (resource_names = cached) then mret tt
  else
    channel ← self_get _channel;
    manager ← world (refresh_build channel resource_names);
    with_lock
      (r ← world (new_list resource_names);
       self_set (set__resource_names r);;
       current ← self_get _manager;
       if components_ne manager current then self_set (set__manager manager)
       else mret tt).

(** ** RobotClient._refresh_every *)

(** One turn of the loop of [_refresh_every], from the end of its sleep:
    every exception of the refresh is caught and logged. *)
Definition _refresh_every_turn (response : exn + list ResourceName) : Meth unit :=
  try_except (refresh response) (λ _, true)
    (λ _, world (log ERROR "Failed to refresh status")).

(** The first turns of the loop of [_refresh_every], one for each answer of
    the discovery call. *)
Fixpoint _refresh_every (responses : list (exn + list ResourceName)) : Meth unit :=
  match responses with
  | [] => mret tt
  | response :: responses' => _refresh_every_turn response;; _refresh_every responses'
  end.

(** ** Accessors *)

Definition get_component (name : ResourceName) : Meth ComponentBase :=
  if decide (rn_type name ≠ "component") then raise (ViamError name)
  else
    with_lock
      (manager ← self_get _manager;
       manager_get_component manager (rn_name name)).

Definition get_service (service_type : ServiceType) : Meth Service :=
  with_lock
    (names ← gets (λ s, cached_names s.1 s.2);
     if decide (st_name service_type ∈
                  (rn_subtype <$> filter (λ rn, rn_type rn = "service") names))
     then channel ← self_get _channel;
          world (ServiceType_with_channel service_type channel)
     else raise (ServiceNotImplementedError (st_name service_type))).

(** The property [resource_names]: a reference to a new list object. *)
Definition resource_names : Meth nat :=
  with_lock
    (names ← gets (λ s, cached_names s.1 s.2);
     world (new_list names)).

(** ** Construction and teardown *)

Section lifecycle.

(** [viam._TASK_PREFIX]; viam/__init__.py is not part of the sources at hand,
    so the constant is a parameter of the development. *)
Variable _TASK_PREFIX : string.

(** [asyncio.create_task(coro, name=name)] *)
Definition create_task (name : string) : M World nat :=
  t ← alloc;
  modify (λ w, set_tasks (<[t := {| task_name := name; task_state := Pending |}]> (tasks w)) w);;
  mret t.

(** [asyncio.all_tasks()]: the tasks of the loop that are not done yet. *)
Definition all_tasks (w : World) : list (nat * Task) :=
  map_to_list (filter (λ kt, task_state kt.2 = Pending) (tasks w)).

(** A task after [task.cancel()] and the [gather] that waits for it. *)
Definition cancelled (k : Task) : Task :=
  {| task_name := task_name k; task_state := Cancelled |}.

(** [task.cancel()] on the task of identity [t]. *)
Definition cancel (t : nat) : M World unit :=
  modify (λ w, set_tasks (alter cancelled t (tasks w)) w).

(** [self._lock.release()]: releasing a lock that is not held raises. *)
Definition lock_release : Meth unit := λ '(w, self),
  if _lock self then (Return tt, (set_trace (EvRelease :: trace w) w, set__lock false self))
  else (Raise RuntimeError, (w, self)).

(** [self._channel.close()] *)
Definition channel_close (channel : Channel) : M World unit :=
  modify (λ w, set_closed ({[channel]} ∪ closed w) w).

Definition close : Meth unit :=
  world (log DEBUG "Closing RobotClient");;
  try_except lock_release is_RuntimeError (λ _, mret tt);;
  world (log DEBUG "Closing tasks spawned by Viam");;
  running ← world (gets all_tasks);
  let tasks := filter (λ kt : nat * Task, String.prefix _TASK_PREFIX (task_name kt.2) = true) running in
  world (for_each tasks
           (λ _ (task : nat * Task), log DEBUG ("Closing task " +:+ task_name task.2);; cancel task.1) tt);;
  should_close ← self_get _should_close_channel;
  if decide (should_close = true) then
    world (log DEBUG "Closing gRPC channel to remote robot");;
    channel ← self_get _channel;
    world (channel_close channel)
  else mret tt.

(** A method call on a client that the caller holds by value. *)
Definition on {A} (self : RobotClient) (m : Meth A) : M World (A * RobotClient) := λ w,
  match m (w, self) with
  | (Return a, (w', self')) => (Return (a, self'), w')
  | (Raise e, (w', _)) => (Raise e, w')
  | (Deadlock, (w', _)) => (Deadlock, w')
  end.

(** [RobotClient.with_channel]; [response] is the answer of the discovery
    call of the first refresh. *)
Definition with_channel (channel : Channel) (options : Options)
    (response : exn + list ResourceName) : M World RobotClient :=
  manager ← new_ResourceManager;
  names ← new_list [];
  let self := {| _channel := channel; _client := channel; _manager := manager;
                 _lock := false; _resource_names := names;
                 _should_close_channel := false; _refresh_task := None |} in
  '(_, self) ← on self (refresh response);
  if decide (refresh_interval options > 0)%Z then
    t ← create_task (_TASK_PREFIX +:+ "-robot_refresh_metadata");
    mret (set__refresh_task (Some t) self)
  else mret self.

(** [RobotClient.at_address]; [dialled] is the answer of [dial_direct]. *)
Definition at_address (address : string) (options : Options) (dialled : exn + Channel)
    (response : exn + list ResourceName) : M World RobotClient :=
  channel ← awaited dialled;
  robot ← with_channel channel options response;
  mret (set__should_close_channel true robot).

(** [RobotClient.__aenter__] returns [self], the client that the state of a
    method already names. *)
Definition __aenter__ : Meth unit := mret tt.

(** [RobotClient.__aexit__] awaits [close] and returns [None]. *)
Definition __aexit__ : Meth unit := close.

(** [async with robot: body].  The exit runs when the body returns and when
    it raises; as [__aexit__] returns [None], the exception of the body is
    raised again after it. *)
Definition async_with {A} (body : Meth A) : Meth A := λ s,
  match (__aenter__;; body) s with
  | (Return a, s') => (__aexit__;; mret a) s'
  | (Raise e, s') => (__aexit__;; raise e) s'
  | (Deadlock, s') => (Deadlock, s')
  end.

End lifecycle.

(** * Vocabulary of the properties *)

(** ** The manager that a refresh builds *)

(** A discovered name that the loop of [refresh] turns into a proxy when a
    factory is registered: a component that is not a remote. *)
Definition qualifies (rn : ResourceName) : Prop :=
  rn_type rn = "component" ∧ rn_subtype rn ≠ "remote".

#[global] Instance qualifies_dec rn : Decision (qualifies rn).
Proof. unfold qualifies. apply _. Defined.

(** The discovered names for which the loop finds no factory. *)
Definition unimplemented (reg : Registry) (names : list ResourceName) : list ResourceName :=
  filter (λ rn, qualifies rn ∧ reg !! rn_subtype rn = None) names.

Definition warning (rn : ResourceName) : Event :=
  EvLog WARNING ("Component of type " +:+ rn_subtype rn +:+ " is not implemented").

(** A proxy that the loop made for one of [names] in a world with registry
    [reg]: bound to the name and the channel, of the registered class, and
    a new object of the interval [lo, hi). *)
Definition made_for (reg : Registry) (ch : Channel) (names : list ResourceName)
    (lo hi : nat) (n : string) (p : ComponentBase) : Prop :=
  proxy_name p = n ∧ proxy_channel p = ch ∧ lo ≤ proxy_id p < hi ∧
  ∃ rn, rn ∈ names ∧ qualifies rn ∧ rn_name rn = n ∧
        reg !! rn_subtype rn = Some (proxy_class p).

(** What the loop of [refresh] does to a manager [m0] in a world [w0]. *)
Record loop_post (ch : Channel) (names : list ResourceName)
    (m0 : ResourceManager) (w0 : World) (m : ResourceManager) (w : World) : Prop := {
  post_registry : registry w = registry w0;
  post_lists : lists w = lists w0;
  post_closed : closed w = closed w0;
  post_tasks : tasks w = tasks w0;
  post_next_id : next_id w0 ≤ next_id w;
  post_mgr_id : mgr_id m = mgr_id m0;
  post_trace : trace w = reverse (warning <$> unimplemented (registry w0) names) ++ trace w0;
  post_dom : ∀ n, is_Some (components m !! n) ↔
                  is_Some (components m0 !! n) ∨
                  ∃ rn, rn ∈ names ∧ qualifies rn ∧ rn_name rn = n ∧
                        is_Some (registry w0 !! rn_subtype rn);
  post_proxy : ∀ n p, components m !! n = Some p →
                  components m0 !! n = Some p ∨
                  made_for (registry w0) ch names (next_id w0) (next_id w) n p }.

(** ** The states after a refresh and after an accessor *)

(** The state that a refresh leaves when it rebuilt a manager [m] and the
    world after the loop was [w1]. *)
Definition installed (names : list ResourceName) (m : ResourceManager)
    (w1 : World) (self : RobotClient) : World * RobotClient :=
  ({| next_id := S (next_id w1); registry := registry w1;
      lists := <[next_id w1 := names]> (lists w1); closed := closed w1;
      tasks := tasks w1; trace := EvRelease :: EvAcquire :: trace w1 |},
   {| _channel := _channel self; _client := _client self;
      _manager := if components_ne m (_manager self) then m else _manager self;
      _lock := false; _resource_names := next_id w1;
      _should_close_channel := _should_close_channel self;
      _refresh_task := _refresh_task self |}).

(** Some cached name is a service of the type [service_type]. *)
Definition offers (names : list ResourceName) (service_type : ServiceType) : Prop :=
  ∃ rn, rn ∈ names ∧ rn_type rn = "service" ∧ rn_subtype rn = st_name service_type.

(** The world after a [with self._lock] block that created one object. *)
Definition locked_alloc (w : World) : World :=
  {| next_id := S (next_id w); registry := registry w; lists := lists w;
     closed := closed w; tasks := tasks w;
     trace := EvRelease :: EvAcquire :: trace w |}.

(** The world after [resource_names] copied the cached list of [self]. *)
Definition copied (w : World) (self : RobotClient) : World :=
  set_lists (<[next_id w := cached_names w self]> (lists w)) (locked_alloc w).

(** ** States that the client reaches *)

(** The lock is free between two method calls, and the list and the manager
    that the client holds are objects that exist. *)
Record wf (w : World) (self : RobotClient) : Prop := {
  wf_lock : _lock self = false;
  wf_names : _resource_names self < next_id w;
  wf_manager : mgr_id (_manager self) < next_id w }.

(** What a call of [refresh] keeps, and what it records. *)
Record refresh_post (response : exn + list ResourceName)
    (w : World) (self : RobotClient) (w' : World) (self' : RobotClient) : Prop := {
  rp_wf : wf w' self';
  rp_channel : _channel self' = _channel self;
  rp_should_close : _should_close_channel self' = _should_close_channel self;
  rp_task : _refresh_task self' = _refresh_task self;
  rp_closed : closed w' = closed w;
  rp_tasks : tasks w' = tasks w;
  rp_registry : registry w' = registry w;
  rp_next_id : next_id w ≤ next_id w';
  rp_names : ∀ names, response = inr names → cached_names w' self' = names }.

(** What the background loop keeps of the client and of the world. *)
Record kept (w : World) (self : RobotClient) (w' : World) (self' : RobotClient) : Prop := {
  kp_wf : wf w' self';
  kp_channel : _channel self' = _channel self;
  kp_should_close : _should_close_channel self' = _should_close_channel self;
  kp_task : _refresh_task self' = _refresh_task self;
  kp_closed : closed w' = closed w;
  kp_tasks : tasks w' = tasks w }.

(** The world and the client at the first refresh of [with_channel]. *)
Definition initial_world (w : World) : World :=
  {| next_id := S (S (next_id w)); registry := registry w;
     lists := <[S (next_id w) := []]> (lists w); closed := closed w;
     tasks := tasks w; trace := trace w |}.

Definition initial_client (channel : Channel) (w : World) : RobotClient :=
  {| _channel := channel; _client := channel;
     _manager := {| mgr_id := next_id w; components := ∅ |};
     _lock := false; _resource_names := S (next_id w);
     _should_close_channel := false; _refresh_task := None |}.

(** ** Tasks and construction *)

Section vocabulary.
Variable _TASK_PREFIX : string.

(** A task that [close] selects by its name. *)
Definition viam_task (k : Task) : bool := String.prefix _TASK_PREFIX (task_name k).

Definition closing (task : nat * Task) : Event :=
  EvLog DEBUG ("Closing task " +:+ task_name task.2).

(** What [close] leaves of a task [k] of the loop. *)
Definition after_close (k : Task) : Task := if viam_task k then cancelled k else k.

Definition refresh_task : Task :=
  {| task_name := _TASK_PREFIX +:+ "-robot_refresh_metadata"; task_state := Pending |}.

(** What a construction that succeeds returns. *)
Record constructed (channel : Channel) (options : Options) (names : list ResourceName)
    (owner : bool) (w : World) (robot : RobotClient) (w' : World) : Prop := {
  cn_wf : wf w' robot;
  cn_channel : _channel robot = channel;
  cn_should_close : _should_close_channel robot = owner;
  cn_names : cached_names w' robot = names;
  cn_closed : closed w' = closed w;
  cn_registry : registry w' = registry w;
  cn_next_id : next_id w ≤ next_id w';
  cn_task : (refresh_interval options > 0)%Z →
            ∃ t, _refresh_task robot = Some t ∧ tasks w' = <[t := refresh_task]> (tasks w);
  cn_no_task : ¬ (refresh_interval options > 0)%Z →
               _refresh_task robot = None ∧ tasks w' = tasks w }.

End vocabulary.

(** ** A robot to run the client on *)

Definition arm1 : ResourceName :=
  {| rn_type := "component"; rn_subtype := "arm"; rn_name := "arm1" |}.
Definition other_robot : ResourceName :=
  {| rn_type := "component"; rn_subtype := "remote"; rn_name := "other-robot" |}.
Definition g1 : ResourceName :=
  {| rn_type := "component"; rn_subtype := "gripper"; rn_name := "g1" |}.
Definition vision1 : ResourceName :=
  {| rn_type := "service"; rn_subtype := "vision"; rn_name := "vision1" |}.

(** A world where only the subtype arm has a factory. *)
Definition world0 : World :=
  {| next_id := 0; registry := {["arm" := "ArmClient"]}; lists := ∅; closed := ∅;
     tasks := ∅; trace := [] |}.

(** A client on channel 7 before its first refresh. *)
Definition world1 : World := initial_world world0.
Definition client1 : RobotClient := initial_client 7 world0.

(** The same client after a refresh that discovered an arm, a remote, a
    gripper and a vision service. *)
Definition discovered : list ResourceName := [arm1; other_robot; g1; vision1].
Definition world2 : World := (refresh (inr discovered) (world1, client1)).2.1.
Definition client2 : RobotClient := (refresh (inr discovered) (world1, client1)).2.2.

(** The world of that client with two more tasks in the event loop: a
    background refresh, and a task of the application. *)
Definition world3 : World :=
  set_tasks {[ 9 := {| task_name := "viam-robot_refresh_metadata"; task_state := Pending |};
               10 := {| task_name := "app-main"; task_state := Pending |} ]} world2.

(** ** Dictionaries that differ *)



(** ** Vocabulary of the further properties *)

(** A state that the client reaches: next to [wf], every proxy of the
    installed manager is an object that exists, is entered under its own name
    and is bound to the channel of the client. *)
Record sound (w : World) (self : RobotClient) : Prop := {
  sd_wf : wf w self;
  sd_proxies : ∀ n p, components (_manager self) !! n = Some p →
                 proxy_id p < next_id w ∧ proxy_name p = n ∧
                 proxy_channel p = _channel self }.

(** Some discovered name is a component, not a remote, of a subtype with a
    registered factory, and has the name [n]. *)
Definition implemented (reg : Registry) (names : list ResourceName) (n : string) : Prop :=
  ∃ rn, rn ∈ names ∧ qualifies rn ∧ rn_name rn = n ∧ is_Some (reg !! rn_subtype rn).






(** * Properties *)

(** ** Unfolding the monad *)

Lemma bind_Return {St A B} (m : M St A) (k : A → M St B) s a s' :
  m s = (Return a, s') → (m ≫= k) s = k a s'.
Proof. intros H. unfold mbind, M_bind. by rewrite H. Qed.

Lemma bind_Raise {St A B} (m : M St A) (k : A → M St B) s e s' :
  m s = (Raise e, s') → (m ≫= k) s = (Raise e, s').
Proof. intros H. unfold mbind, M_bind. by rewrite H. Qed.

Ltac run :=
  cbv beta iota zeta delta
    [mbind mret M_bind M_ret raise gets modify world self_get self_set awaited
     alloc emit log new_list fst snd].

(** ** The loop of [refresh] *)

Lemma refresh_rname_skip ch m rn w :
  ¬ qualifies rn → refresh_rname ch m rn w = (Return m, w).
Proof.
  intros Hq. unfold refresh_rname, qualifies in *.
  repeat case_decide; try done. naive_solver.
Qed.

Lemma refresh_rname_create ch m rn w factory :
  qualifies rn → registry w !! rn_subtype rn = Some factory →
  refresh_rname ch m rn w =
    (Return (register {| proxy_id := next_id w; proxy_class := factory;
                         proxy_name := rn_name rn; proxy_channel := ch |} m),
     set_next_id (S (next_id w)) w).
Proof.
  intros [Ht Hs] Hf. unfold refresh_rname.
  rewrite decide_False by naive_solver. rewrite decide_False by done.
  unfold try_except, Registry_lookup, create_rpc_client. run. by rewrite Hf.
Qed.

Lemma refresh_rname_warn ch m rn w :
  qualifies rn → registry w !! rn_subtype rn = None →
  refresh_rname ch m rn w = (Return m, set_trace (warning rn :: trace w) w).
Proof.
  intros [Ht Hs] Hf. unfold refresh_rname.
  rewrite decide_False by naive_solver. rewrite decide_False by done.
  unfold try_except, Registry_lookup, create_rpc_client. run. by rewrite Hf.
Qed.

Lemma made_for_weaken reg ch names names' lo lo' hi hi' n p :
  made_for reg ch names lo hi n p → names ⊆ names' → lo' ≤ lo → hi ≤ hi' →
  made_for reg ch names' lo' hi' n p.
Proof.
  intros (? & ? & ? & rn & ? & ?) Hsub ? ?. repeat split; try done; try lia.
  exists rn. split; [by apply Hsub | done].
Qed.

Lemma for_each_refresh_rname ch names : ∀ m0 w0,
  ∃ m w, for_each names (refresh_rname ch) m0 w0 = (Return m, w) ∧
         loop_post ch names m0 w0 m w.
Proof.
  induction names as [|rn names IH]; intros m0 w0.
  - exists m0, w0. split; [done|]. split; try done.
    + intros n. split; [by left | intros [?|(rn & Hin & _)]; [done|]]. by apply elem_of_nil in Hin.
    + intros n p ?. by left.
  - cbn [for_each].
    destruct (decide (qualifies rn)) as [Hq|Hq].
    + destruct (registry w0 !! rn_subtype rn) as [factory|] eqn:Hf.
      * set (p0 := {| proxy_id := next_id w0; proxy_class := factory;
                      proxy_name := rn_name rn; proxy_channel := ch |}).
        destruct (IH (register p0 m0) (set_next_id (S (next_id w0)) w0)) as (m & w & Hrun & H).
        exists m, w. split.
        { erewrite bind_Return; [exact Hrun|]. by apply refresh_rname_create. }
        destruct H. cbn in *. split; try done; try lia.
        -- rewrite post_trace0. unfold unimplemented. rewrite filter_cons_False; [done|].
           intros [_ ?]. congruence.
        -- intros n. rewrite post_dom0. cbn. rewrite lookup_insert. case_decide as Hn.
           ++ split; [|intros _; left; by eexists].
              intros _. right. exists rn. rewrite Hf. set_solver.
           ++ split; intros [?|(rn' & ? & ?)]; try by left.
              ** right. exists rn'. set_solver.
              ** right. exists rn'. split; [|done]. set_unfold. naive_solver.
        -- intros n p Hp. destruct (post_proxy0 n p Hp) as [Hin|Hmade].
           ++ cbn in Hin. rewrite lookup_insert in Hin. case_decide as Hn.
              ** right. simplify_eq. repeat split; cbn; try lia.
                 exists rn. set_solver.
              ** by left.
           ++ right. eapply made_for_weaken; [done| |cbn; lia|lia]. set_solver.
      * destruct (IH m0 (set_trace (warning rn :: trace w0) w0)) as (m & w & Hrun & H).
        exists m, w. split.
        { erewrite bind_Return; [exact Hrun|]. by apply refresh_rname_warn. }
        destruct H. cbn in *. split; try done.
        -- rewrite post_trace0. unfold unimplemented. rewrite filter_cons_True by done.
           rewrite fmap_cons, reverse_cons, <-app_assoc. done.
        -- intros n. rewrite post_dom0. split; intros [?|(rn' & ? & ?)]; try by left.
           ++ right. exists rn'. set_solver.
           ++ right. exists rn'. split; [|done]. set_unfold.
              destruct H as [->|?]; [|done]. destruct H0 as (_ & _ & [? ?]). congruence.
        -- intros n p Hp. destruct (post_proxy0 n p Hp) as [Hin|Hmade]; [by left|].
           right. eapply made_for_weaken; [done| |cbn; lia|lia]. set_solver.
    + destruct (IH m0 w0) as (m & w & Hrun & H).
      exists m, w. split.
      { erewrite bind_Return; [exact Hrun|]. by apply refresh_rname_skip. }
      destruct H. split; try done.
      * rewrite post_trace0. unfold unimplemented. rewrite filter_cons_False; [done|].
        naive_solver.
      * intros n. rewrite post_dom0. split; intros [?|(rn' & ? & ?)]; try by left.
        -- right. exists rn'. set_solver.
        -- right. exists rn'. split; [|done]. set_unfold. naive_solver.
      * intros n p Hp. destruct (post_proxy0 n p Hp) as [Hin|Hmade]; [by left|].
        right. eapply made_for_weaken; [done| |lia|lia]. set_solver.
Qed.

Lemma refresh_build_spec ch names w :
  ∃ m w', refresh_build ch names w = (Return m, w') ∧
          loop_post ch names {| mgr_id := next_id w; components := ∅ |}
                    (set_next_id (S (next_id w)) w) m w'.
Proof.
  destruct (for_each_refresh_rname ch names {| mgr_id := next_id w; components := ∅ |}
              (set_next_id (S (next_id w)) w)) as (m & w' & Hrun & Hpost).
  exists m, w'. split; [|done].
  unfold refresh_build, new_ResourceManager. run. exact Hrun.
Qed.

(** ** The two branches of [refresh] *)

Lemma refresh_same w self :
  refresh (inr (cached_names w self)) (w, self) = (Return tt, (w, self)).
Proof. unfold refresh. run. by rewrite decide_True. Qed.

Lemma refresh_changed w self names m w1 :
  names ≠ cached_names w self → _lock self = false →
  refresh_build (_channel self) names w = (Return m, w1) →
  refresh (inr names) (w, self) = (Return tt, installed names m w1 self).
Proof.
  intros Hne Hlock Hbuild. unfold refresh. run.
  rewrite decide_False by done. rewrite Hbuild.
  unfold with_lock. rewrite Hlock. run. cbn.
  unfold installed. by destruct (components_ne m (_manager self)).
Qed.

Lemma refresh_failed e s : refresh (inl e) s = (Raise e, s).
Proof. done. Qed.

Lemma refresh_blocked w self names :
  names ≠ cached_names w self → _lock self = true →
  (refresh (inr names) (w, self)).1 = Deadlock.
Proof.
  intros Hne Hlock. unfold refresh. run. rewrite decide_False by done.
  destruct (refresh_build_spec (_channel self) names w) as (m & w1 & -> & _).
  unfold with_lock. by rewrite Hlock.
Qed.

(** ** Accessors on a client whose lock is free *)

Lemma unlocked_eq self :
  _lock self = false → set__lock false (set__lock true self) = self.
Proof. destruct self. cbn. by intros ->. Qed.

Lemma offers_elem_of names service_type :
  st_name service_type ∈ (rn_subtype <$> filter (λ rn, rn_type rn = "service") names)
  ↔ offers names service_type.
Proof.
  unfold offers. rewrite list_elem_of_fmap. split.
  - intros (rn & -> & Hin). apply list_elem_of_filter in Hin as [? ?]. by exists rn.
  - intros (rn & Hin & Ht & <-). exists rn. split; [done|]. by apply list_elem_of_filter.
Qed.

Lemma offers_or_not names service_type :
  offers names service_type ∨ ¬ offers names service_type.
Proof.
  destruct (decide (st_name service_type ∈
                      (rn_subtype <$> filter (λ rn, rn_type rn = "service") names))) as [H|H].
  - left. by apply offers_elem_of.
  - right. by rewrite <-offers_elem_of.
Qed.

Lemma get_service_found w self service_type :
  _lock self = false → offers (cached_names w self) service_type →
  get_service service_type (w, self) =
    (Return {| svc_id := next_id w; svc_type := st_name service_type;
               svc_channel := _channel self |},
     (locked_alloc w, self)).
Proof.
  intros Hlock Hin. apply offers_elem_of in Hin. unfold get_service, with_lock. rewrite Hlock. run.
  unfold cached_names in *. cbn. rewrite decide_True by done.
  unfold ServiceType_with_channel. run. cbn. by rewrite unlocked_eq.
Qed.

Lemma get_service_missing w self service_type :
  _lock self = false → ¬ offers (cached_names w self) service_type →
  get_service service_type (w, self) =
    (Raise (ServiceNotImplementedError (st_name service_type)),
     (set_trace (EvRelease :: EvAcquire :: trace w) w, self)).
Proof.
  intros Hlock Hin. rewrite <-offers_elem_of in Hin.
  unfold get_service, with_lock. rewrite Hlock. run.
  unfold cached_names in *. cbn. rewrite decide_False by done.
  cbn. by rewrite unlocked_eq.
Qed.

Lemma get_component_locked w self name :
  rn_type name = "component" → _lock self = false →
  get_component name (w, self) =
    (match components (_manager self) !! rn_name name with
     | Some c => Return c
     | None => Raise (ComponentNotFoundError "component" (rn_name name))
     end, (set_trace (EvRelease :: EvAcquire :: trace w) w, self)).
Proof.
  intros Ht Hlock. unfold get_component. rewrite decide_False by naive_solver.
  unfold with_lock, manager_get_component. rewrite Hlock. run. cbn.
  destruct (components (_manager self) !! rn_name name); run; cbn; by rewrite unlocked_eq.
Qed.

(** ** Lists in the heap *)

Lemma list_at_copied_new w self : list_at (copied w self) (next_id w) = cached_names w self.
Proof. unfold list_at, copied. cbn. by rewrite lookup_insert_eq. Qed.

Lemma list_at_copied_old w self r :
  r ≠ next_id w → list_at (copied w self) r = list_at w r.
Proof. intros Hne. unfold list_at, copied. cbn. by rewrite lookup_insert_ne. Qed.

Lemma list_at_mutate_eq w r f : list_at (list_mutate r f w) r = f (list_at w r).
Proof. unfold list_mutate. unfold list_at at 1. cbn. by rewrite lookup_insert_eq. Qed.

Lemma list_at_mutate_ne w r r' f :
  r' ≠ r → list_at (list_mutate r f w) r' = list_at w r'.
Proof. intros Hne. unfold list_mutate, list_at. cbn. by rewrite lookup_insert_ne. Qed.

Lemma resource_names_copy w self :
  _lock self = false →
  resource_names (w, self) = (Return (next_id w), (copied w self, self)).
Proof.
  intros Hlock. unfold resource_names, with_lock. rewrite Hlock. run. cbn.
  by rewrite unlocked_eq.
Qed.

(** ** What a refresh keeps *)

Lemma cached_names_installed names m w1 self :
  cached_names (installed names m w1 self).1 (installed names m w1 self).2 = names.
Proof. unfold cached_names, list_at. cbn. by rewrite lookup_insert_eq. Qed.

Lemma refresh_runs response w self :
  wf w self →
  ∃ w' self',
    refresh response (w, self) =
      (match response with inl e => Raise e | inr _ => Return tt end, (w', self')) ∧
    refresh_post response w self w' self'.
Proof.
  intros [Hlock Hnames Hmgr]. destruct response as [e|names].
  - exists w, self. split; [done|]. by split.
  - destruct (decide (names = cached_names w self)) as [->|Hne].
    + exists w, self. split; [apply refresh_same|]. split; try done. by intros ? [= <-].
    + destruct (refresh_build_spec (_channel self) names w) as (m & w1 & Hbuild & Hpost).
      eexists _, _. split; [by apply refresh_changed|].
      destruct Hpost. cbn in *. split; cbn; try done; try lia.
      * split; cbn; [done|lia|]. destruct (components_ne m (_manager self)); lia.
      * intros ? [= <-]. apply cached_names_installed.
Qed.

(** ** The background loop *)

Lemma refresh_every_turn_runs response w self :
  wf w self →
  ∃ w' self', _refresh_every_turn response (w, self) = (Return tt, (w', self')) ∧
              kept w self w' self'.
Proof.
  intros Hwf. destruct (refresh_runs response w self Hwf) as (w' & self' & Hrun & Hpost).
  unfold _refresh_every_turn, try_except. rewrite Hrun. destruct Hpost as [[] ? ? ? ? ? ? ? ?].
  destruct response; run; eexists _, _; (split; [done|]); split; try done.
Qed.

Lemma refresh_every_runs responses : ∀ w self,
  wf w self →
  ∃ w' self', _refresh_every responses (w, self) = (Return tt, (w', self')) ∧
              kept w self w' self'.
Proof.
  induction responses as [|response responses IH]; intros w self Hwf.
  - exists w, self. split; [done|]. by split.
  - destruct (refresh_every_turn_runs response w self Hwf) as (w1 & self1 & Hrun1 & H1).
    destruct (IH w1 self1 (kp_wf _ _ _ _ H1)) as (w2 & self2 & Hrun2 & H2).
    exists w2, self2. split.
    + cbn [_refresh_every]. erewrite bind_Return; [exact Hrun2|exact Hrun1].
    + destruct H1, H2. split; try done; congruence.
Qed.

Lemma prefix_app (p s : string) : String.prefix p (p +:+ s) = true.
Proof.
  induction p as [|a p IH]; simpl; [by destruct s|].
  destruct (Ascii.ascii_dec a a); [exact IH|congruence].
Qed.

(** ** Teardown and construction *)

Section lifecycle_properties.
Variable _TASK_PREFIX : string.

Lemma cancel_loop (l : list (nat * Task)) : ∀ w,
  for_each l (λ _ (task : nat * Task),
                log DEBUG ("Closing task " +:+ task_name task.2);; cancel task.1) tt w =
  (Return tt,
   {| next_id := next_id w; registry := registry w; lists := lists w;
      closed := closed w;
      tasks := foldl (λ ts task, alter cancelled task.1 ts) (tasks w) l;
      trace := reverse (closing <$> l) ++ trace w |}).
Proof.
  induction l as [|[j k] l IH]; intros w.
  - by destruct w.
  - cbn [for_each]. unfold cancel. run. rewrite IH.
    rewrite fmap_cons, reverse_cons, <-app_assoc. reflexivity.
Qed.

Lemma cancelled_idemp k : cancelled (cancelled k) = cancelled k.
Proof. done. Qed.

Lemma lookup_cancel_all (l : list (nat * Task)) : ∀ (ts : gmap nat Task) i,
  foldl (λ ts task, alter cancelled task.1 ts) ts l !! i =
  if decide (i ∈ l.*1) then cancelled <$> ts !! i else ts !! i.
Proof.
  induction l as [|[j k] l IH]; intros ts i; cbn [foldl].
  - rewrite decide_False; [done|]. cbn. apply not_elem_of_nil.
  - rewrite IH. cbn. destruct (decide (i = j)) as [->|Hne].
    + rewrite lookup_alter_eq. rewrite (decide_True (P := j ∈ j :: l.*1)) by set_solver.
      case_decide; [|done]. destruct (ts !! j); cbn; [|done]. done.
    + rewrite lookup_alter_ne by done.
      repeat case_decide; try done; set_solver.
Qed.

Lemma selected_tasks (ts : gmap nat Task) i :
  i ∈ (filter (λ kt : nat * Task, viam_task _TASK_PREFIX kt.2 = true)
         (map_to_list (filter (λ kt : nat * Task, task_state kt.2 = Pending) ts))).*1
  ↔ ∃ k, ts !! i = Some k ∧ task_state k = Pending ∧ viam_task _TASK_PREFIX k = true.
Proof.
  rewrite list_elem_of_fmap. split.
  - intros ([j k] & -> & Hin). apply list_elem_of_filter in Hin as [Hv Hin].
    apply elem_of_map_to_list in Hin. apply map_lookup_filter_Some in Hin as [? ?].
    by exists k.
  - intros (k & Hk & Hp & Hv). exists (i, k). split; [done|].
    apply list_elem_of_filter. split; [done|].
    apply elem_of_map_to_list. by apply map_lookup_filter_Some.
Qed.

Lemma close_eq w self :
  ∃ w', close _TASK_PREFIX (w, self) = (Return tt, (w', set__lock false self)) ∧
        next_id w' = next_id w ∧ registry w' = registry w ∧ lists w' = lists w ∧
        closed w' = (if _should_close_channel self then {[_channel self]} ∪ closed w
                     else closed w) ∧
        ∀ i, tasks w' !! i = after_close _TASK_PREFIX <$> tasks w !! i.
Proof.
  unfold close. run. unfold try_except, lock_release.
  assert (Hself : _lock self = false → self = set__lock false self).
  { destruct self; cbn. by intros ->. }
  assert (Htasks : ∀ i,
    foldl (λ ts (task : nat * Task), alter cancelled task.1 ts) (tasks w)
      (filter (λ kt : nat * Task, String.prefix _TASK_PREFIX (task_name kt.2) = true)
         (all_tasks w)) !! i = after_close _TASK_PREFIX <$> tasks w !! i).
  { intros i. rewrite lookup_cancel_all. unfold all_tasks, after_close.
    case_decide as Hi.
    - apply selected_tasks in Hi as (k & Hk & _ & Hv). rewrite Hk. cbn. by rewrite Hv.
    - destruct (tasks w !! i) as [k|] eqn:Hk; [|done]. cbn.
      destruct (viam_task _TASK_PREFIX k) eqn:Hv; [|done].
      destruct k as [n []]; [|done].
      exfalso. apply Hi, selected_tasks. by eexists. }
  destruct (_lock self) eqn:Hlock; cbn; rewrite cancel_loop; cbn;
    destruct (_should_close_channel self) eqn:Hclose; cbn;
    eexists; (split; [try reflexivity; by rewrite <-Hself|]); cbn; done.
Qed.

Lemma initial_wf channel w : wf (initial_world w) (initial_client channel w).
Proof. split; cbn; [done|lia|lia]. Qed.

Lemma initial_names channel w :
  cached_names (initial_world w) (initial_client channel w) = [].
Proof. unfold cached_names, list_at. cbn. by rewrite lookup_insert_eq. Qed.

Lemma with_channel_eq channel options response w :
  with_channel _TASK_PREFIX channel options response w =
  match refresh response (initial_world w, initial_client channel w) with
  | (Return _, (w', self)) =>
      if decide (refresh_interval options > 0)%Z then
        (Return (set__refresh_task (Some (next_id w')) self),
         {| next_id := S (next_id w'); registry := registry w'; lists := lists w';
            closed := closed w'; tasks := <[next_id w' := refresh_task _TASK_PREFIX]> (tasks w');
            trace := trace w' |})
      else (Return self, w')
  | (Raise e, (w', _)) => (Raise e, w')
  | (Deadlock, (w', _)) => (Deadlock, w')
  end.
Proof.
  unfold with_channel, new_ResourceManager, on. run. cbn.
  change (refresh response (_, _))
    with (refresh response (initial_world w, initial_client channel w)).
  destruct (refresh response (initial_world w, initial_client channel w)) as [[[]| |] [w' self]];
    try done.
  case_decide; [|done]. unfold create_task. run. done.
Qed.

Lemma with_channel_fails channel options e w :
  with_channel _TASK_PREFIX channel options (inl e) w = (Raise e, initial_world w).
Proof. by rewrite with_channel_eq. Qed.

Lemma with_channel_runs channel options names w :
  ∃ robot w', with_channel _TASK_PREFIX channel options (inr names) w = (Return robot, w') ∧
              constructed _TASK_PREFIX channel options names false w robot w'.
Proof.
  destruct (refresh_runs (inr names) _ _ (initial_wf channel w)) as (w' & self & Hrun & Hpost).
  rewrite with_channel_eq, Hrun. destruct Hpost as [[] ? ? ? ? ? ? ? Hnames]. cbn in *.
  case_decide.
  - eexists _, _. split; [done|]. split; cbn; try done; try lia.
    + split; cbn; [done|lia|lia].
    + by apply Hnames.
    + intros _. eexists. split; [done|]. by f_equal.
  - eexists _, _. split; [done|]. split; cbn; try done; try lia.
    by apply Hnames.
Qed.

Lemma at_address_runs address channel options names w :
  ∃ robot w',
    at_address _TASK_PREFIX address options (inr channel) (inr names) w = (Return robot, w') ∧
    constructed _TASK_PREFIX channel options names true w robot w'.
Proof.
  destruct (with_channel_runs channel options names w) as (robot & w' & Hrun & Hc).
  exists (set__should_close_channel true robot), w'. split.
  - unfold at_address. run. by rewrite Hrun.
  - destruct Hc as [[] ? ? ? ? ? ? ? ?]. split; try done.
Qed.

Lemma at_address_fails address channel options e w :
  at_address _TASK_PREFIX address options (inr channel) (inl e) w =
    (Raise e, initial_world w).
Proof. unfold at_address. run. by rewrite with_channel_fails. Qed.

Lemma at_address_no_dial address options e response w :
  at_address _TASK_PREFIX address options (inl e) response w = (Raise e, w).
Proof. done. Qed.

End lifecycle_properties.

(** ** Comparing the dictionaries of two managers *)




(** * The claims *)

(** C1: when the discovery call answers with a list equal to the cached
    list (same names in the same order), [refresh] returns at once and
    changes nothing: the client is the same, so the installed manager is the
    same object, and the world is the same, so no manager was built, no lock
    operation is on the trace, and this holds also when the lock is held. *)
Theorem refresh_unchanged_is_noop w self names :
  names = cached_names w self →
  refresh (inr names) (w, self) = (Return tt, (w, self)).
Proof. intros ->. apply refresh_same. Qed.

Lemma refresh_unchanged_is_noop_witness :
  refresh (inr []) (world1, set__lock true client1) =
    (Return tt, (world1, set__lock true client1)).
Proof. apply refresh_unchanged_is_noop. reflexivity. Defined.

(** C7: [get_component] on a name whose type is not "component" raises
    [ViamError], whatever the manager holds and whether the lock is held or
    not; the state is left as it was. *)
Theorem get_component_rejects_non_component w self name :
  rn_type name ≠ "component" →
  get_component name (w, self) = (Raise (ViamError name), (w, self)).
Proof. intros Ht. unfold get_component. by rewrite decide_True. Qed.

Lemma get_component_rejects_non_component_witness :
  get_component vision1 (world1, client1) = (Raise (ViamError vision1), (world1, client1)).
Proof. apply get_component_rejects_non_component. discriminate. Defined.

(** C6: on a client whose lock is free, [get_service] returns exactly when
    some cached resource name has type "service" and the subtype of the
    service type; it then returns a new service client bound to the channel
    of the client, and otherwise it raises [ServiceNotImplementedError]. *)
Theorem get_service_iff_offered w self service_type :
  _lock self = false →
  ((∃ svc s, get_service service_type (w, self) = (Return svc, s))
     ↔ offers (cached_names w self) service_type) ∧
  (offers (cached_names w self) service_type →
     get_service service_type (w, self) =
       (Return {| svc_id := next_id w; svc_type := st_name service_type;
                  svc_channel := _channel self |},
        (locked_alloc w, self))) ∧
  (¬ offers (cached_names w self) service_type →
     (get_service service_type (w, self)).1 =
       Raise (ServiceNotImplementedError (st_name service_type))).
Proof.
  intros Hlock. split; [|split].
  - split.
    + intros (svc & s & Hrun). destruct (offers_or_not (cached_names w self) service_type)
        as [|Hno]; [done|].
      by rewrite (get_service_missing _ _ _ Hlock Hno) in Hrun.
    + intros Hin. eexists _, _. by apply get_service_found.
  - by apply get_service_found.
  - intros Hno. by rewrite get_service_missing.
Qed.

Lemma get_service_iff_offered_witness :
  ((∃ svc s, get_service {| st_name := "vision" |} (world2, client2) = (Return svc, s))
     ↔ offers (cached_names world2 client2) {| st_name := "vision" |}) ∧
  (offers (cached_names world2 client2) {| st_name := "vision" |} →
     get_service {| st_name := "vision" |} (world2, client2) =
       (Return {| svc_id := next_id world2; svc_type := "vision";
                  svc_channel := _channel client2 |},
        (locked_alloc world2, client2))) ∧
  (¬ offers (cached_names world2 client2) {| st_name := "vision" |} →
     (get_service {| st_name := "vision" |} (world2, client2)).1 =
       Raise (ServiceNotImplementedError "vision")).
Proof. apply (get_service_iff_offered world2 client2). vm_compute. reflexivity. Defined.

(** C8: on a client in a state that it reaches, [resource_names] returns a
    new list object with the contents of the cached list; whatever the
    caller then does to that object in place, the cached list of the client
    and the contents of the list that the next call returns stay the same. *)
Theorem resource_names_returns_copy w self (f : list ResourceName → list ResourceName) :
  wf w self →
  ∃ r w1,
    resource_names (w, self) = (Return r, (w1, self)) ∧
    r ≠ _resource_names self ∧
    list_at w1 r = cached_names w self ∧
    cached_names w1 self = cached_names w self ∧
    list_at (list_mutate r f w1) r = f (cached_names w self) ∧
    cached_names (list_mutate r f w1) self = cached_names w self ∧
    ∃ r2 w2,
      resource_names (list_mutate r f w1, self) = (Return r2, (w2, self)) ∧
      list_at w2 r2 = cached_names w self.
Proof.
  intros [Hlock Hnames _].
  assert (Hne : _resource_names self ≠ next_id w) by lia.
  exists (next_id w), (copied w self). split; [by apply resource_names_copy|].
  split; [done|]. unfold cached_names.
  rewrite list_at_mutate_eq, list_at_mutate_ne, list_at_copied_new by done.
  rewrite list_at_copied_old by done.
  repeat (split; [done|]).
  eexists _, _. split; [by apply resource_names_copy|].
  rewrite list_at_copied_new. unfold cached_names.
  rewrite list_at_mutate_ne by done. by apply list_at_copied_old.
Qed.

Lemma resource_names_returns_copy_witness :
  ∃ r w1,
    resource_names (world2, client2) = (Return r, (w1, client2)) ∧
    r ≠ _resource_names client2 ∧
    list_at w1 r = cached_names world2 client2 ∧
    cached_names w1 client2 = cached_names world2 client2 ∧
    list_at (list_mutate r (λ _, []) w1) r = [] ∧
    cached_names (list_mutate r (λ _, []) w1) client2 = cached_names world2 client2 ∧
    ∃ r2 w2,
      resource_names (list_mutate r (λ _, []) w1, client2) = (Return r2, (w2, client2)) ∧
      list_at w2 r2 = cached_names world2 client2.
Proof.
  apply (resource_names_returns_copy world2 client2 (λ _, [])).
  split; vm_compute; lia.
Defined.

(** C2: when the discovered list differs from the cached list, the manager
    that [refresh] builds holds a proxy under a name exactly when some
    discovered resource of that name is a component, is not a remote and has
    a subtype with a registered factory; every proxy of the manager was made
    by the factory of such a resource and is bound to its name and to the
    channel of the client; for every component that is not a remote and whose
    subtype has no factory one warning is logged, in the order of discovery,
    the refresh still returns normally, and the manager that is installed
    after it holds the same names as the one that was built. *)
Theorem refresh_builds_registered_components w self names :
  names ≠ cached_names w self → _lock self = false →
  ∃ manager w1 w' self',
    refresh_build (_channel self) names w = (Return manager, w1) ∧
    refresh (inr names) (w, self) = (Return tt, (w', self')) ∧
    (∀ n, is_Some (components manager !! n) ↔
          ∃ rn, rn ∈ names ∧ rn_type rn = "component" ∧ rn_subtype rn ≠ "remote" ∧
                rn_name rn = n ∧ is_Some (registry w !! rn_subtype rn)) ∧
    (∀ n p, components manager !! n = Some p →
          proxy_name p = n ∧ proxy_channel p = _channel self ∧
          ∃ rn, rn ∈ names ∧ rn_type rn = "component" ∧ rn_subtype rn ≠ "remote" ∧
                rn_name rn = n ∧ registry w !! rn_subtype rn = Some (proxy_class p)) ∧
    trace w1 = reverse (warning <$> unimplemented (registry w) names) ++ trace w ∧
    dom (components (_manager self')) = dom (components manager).
Proof.
  intros Hne Hlock.
  destruct (refresh_build_spec (_channel self) names w) as (m & w1 & Hbuild & Hpost).
  eexists m, w1, _, _. split; [done|]. split; [by apply refresh_changed|].
  destruct Hpost. cbn in *. split; [|split; [|split]].
  - intros n. rewrite post_dom0. rewrite lookup_empty. unfold qualifies. split.
    + intros [[? [=]]|(rn & ? & [? ?] & ? & ?)]. by exists rn.
    + intros (rn & ? & ? & ? & ? & ?). right. by exists rn.
  - intros n p Hp. destruct (post_proxy0 n p Hp) as [Hin|Hmade].
    + by rewrite lookup_empty in Hin.
    + destruct Hmade as (? & ? & _ & rn & ? & [? ?] & ? & ?). repeat split; try done.
      by exists rn.
  - done.
  - unfold components_ne. case_bool_decide as Hd; [done|].
    apply (f_equal dom) in Hd. by rewrite !dom_fmap_L in Hd.
Qed.

Lemma refresh_builds_registered_components_witness :
  ∃ manager w1 w' self',
    refresh_build (_channel client1) discovered world1 = (Return manager, w1) ∧
    refresh (inr discovered) (world1, client1) = (Return tt, (w', self')) ∧
    (∀ n, is_Some (components manager !! n) ↔
          ∃ rn, rn ∈ discovered ∧ rn_type rn = "component" ∧ rn_subtype rn ≠ "remote" ∧
                rn_name rn = n ∧ is_Some (registry world1 !! rn_subtype rn)) ∧
    (∀ n p, components manager !! n = Some p →
          proxy_name p = n ∧ proxy_channel p = _channel client1 ∧
          ∃ rn, rn ∈ discovered ∧ rn_type rn = "component" ∧ rn_subtype rn ≠ "remote" ∧
                rn_name rn = n ∧ registry world1 !! rn_subtype rn = Some (proxy_class p)) ∧
    trace w1 = reverse (warning <$> unimplemented (registry world1) discovered)
                 ++ trace world1 ∧
    dom (components (_manager self')) = dom (components manager).
Proof.
  apply (refresh_builds_registered_components world1 client1 discovered).
  - vm_compute. discriminate.
  - reflexivity.
Defined.

(** The scenarios of the discovery protocol, run on the model. *)
Example refresh_arm_and_remote :
  components (_manager client2) =
    {[ "arm1" := {| proxy_id := 3; proxy_class := "ArmClient"; proxy_name := "arm1";
                    proxy_channel := 7 |} ]} ∧
  trace world2 = [EvRelease; EvAcquire; warning g1].
Proof. split; by vm_compute. Qed.



(** C9: after a refresh whose discovered list differs from the cached list,
    the cached list is the discovered list, also when the new manager is not
    installed because its [components] dictionary equals that of the
    installed one; [resource_names] then returns the discovered list and
    [get_service] answers from it, while the manager of the client, and with
    it every answer of [get_component], is the one from before. *)
Theorem refresh_records_names_without_swap w self names :
  names ≠ cached_names w self → wf w self →
  ∃ manager w1 w' self',
    refresh_build (_channel self) names w = (Return manager, w1) ∧
    refresh (inr names) (w, self) = (Return tt, (w', self')) ∧
    cached_names w' self' = names ∧
    (∃ r w2, resource_names (w', self') = (Return r, (w2, self')) ∧ list_at w2 r = names) ∧
    (∀ service_type,
        (∃ svc s, get_service service_type (w', self') = (Return svc, s))
        ↔ offers names service_type) ∧
    (components_ne manager (_manager self) = false →
       _manager self' = _manager self ∧
       ∀ name, (get_component name (w', self')).1 = (get_component name (w, self)).1).
Proof.
  intros Hne [Hlock Hnames Hmgr].
  destruct (refresh_build_spec (_channel self) names w) as (m & w1 & Hbuild & Hpost).
  exists m, w1, (installed names m w1 self).1, (installed names m w1 self).2.
  split; [done|]. split; [by apply refresh_changed|].
  pose proof (cached_names_installed names m w1 self) as Hcached.
  split; [done|]. split; [|split].
  - eexists _, _. split; [by apply resource_names_copy|].
    by rewrite list_at_copied_new.
  - intros service_type. split.
    + intros (svc & s & Hrun).
      destruct (offers_or_not names service_type) as [|Hno]; [done|].
      rewrite get_service_missing in Hrun; [done|done|by rewrite Hcached].
    + intros Hin. eexists _, _. apply get_service_found; [done|by rewrite Hcached].
  - intros Heq.
    assert (Hm : _manager (installed names m w1 self).2 = _manager self).
    { cbn. by rewrite Heq. }
    split; [done|]. intros name.
    destruct (decide (rn_type name = "component")) as [Ht|Ht].
    + rewrite !get_component_locked by done. cbn [fst]. by rewrite Hm.
    + unfold get_component. by rewrite !decide_True.
Qed.

(** A refresh of the new client that discovers only a service builds an
    empty manager, as the installed one is: the names are recorded and the
    manager stays. *)
Lemma refresh_records_names_without_swap_witness :
  ∃ w' self',
    refresh (inr [vision1]) (world1, client1) = (Return tt, (w', self')) ∧
    cached_names w' self' = [vision1] ∧
    _manager self' = _manager client1.
Proof.
  destruct (refresh_records_names_without_swap world1 client1 [vision1])
    as (m & w1 & w' & self' & Hbuild & Hrun & Hnames & _ & _ & Hkeep).
  - vm_compute. discriminate.
  - apply initial_wf.
  - exists w', self'. split; [exact Hrun|]. split; [exact Hnames|].
    apply Hkeep. vm_compute in Hbuild. injection Hbuild as <- _. reflexivity.
Defined.

Section lifecycle_claims.
Variable _TASK_PREFIX : string.

(** C4: when the first refresh of a construction raises, [with_channel] and
    [at_address] raise the same exception to their caller: no client is
    returned, and no task was created. *)
Theorem construction_propagates_refresh_failure address channel options response e w :
  (refresh response (initial_world w, initial_client channel w)).1 = Raise e →
  (∃ w', with_channel _TASK_PREFIX channel options response w = (Raise e, w') ∧
         tasks w' = tasks w) ∧
  (∃ w', at_address _TASK_PREFIX address options (inr channel) response w = (Raise e, w') ∧
         tasks w' = tasks w).
Proof.
  intros Hraise.
  destruct (refresh_runs response _ _ (initial_wf channel w)) as (w' & self & Hrun & Hpost).
  rewrite Hrun in Hraise. cbn in Hraise.
  assert (Hwith : with_channel _TASK_PREFIX channel options response w = (Raise e, w')).
  { rewrite with_channel_eq, Hrun. by destruct response; simplify_eq. }
  split; exists w'; (split; [|by rewrite (rp_tasks _ _ _ _ _ Hpost)]); [done|].
  unfold at_address. run. by rewrite Hwith.
Qed.

(** C5: a client made by [at_address] closes its channel when it is closed,
    and a client made by [with_channel] leaves the set of closed channels as
    it was at its construction, also after any number of turns of the
    background loop. *)
Theorem close_closes_channel_iff_dialled address channel options names responses w :
  (∃ robot w1 robot1 w2 robot2 w3,
      at_address _TASK_PREFIX address options (inr channel) (inr names) w = (Return robot, w1) ∧
      _refresh_every responses (w1, robot) = (Return tt, (w2, robot1)) ∧
      close _TASK_PREFIX (w2, robot1) = (Return tt, (w3, robot2)) ∧
      channel ∈ closed w3) ∧
  (∃ robot w1 robot1 w2 robot2 w3,
      with_channel _TASK_PREFIX channel options (inr names) w = (Return robot, w1) ∧
      _refresh_every responses (w1, robot) = (Return tt, (w2, robot1)) ∧
      close _TASK_PREFIX (w2, robot1) = (Return tt, (w3, robot2)) ∧
      closed w3 = closed w).
Proof.
  split.
  - destruct (at_address_runs _TASK_PREFIX address channel options names w)
      as (robot & w1 & Hmake & Hc).
    destruct (refresh_every_runs responses w1 robot (cn_wf _ _ _ _ _ _ _ _ Hc))
      as (w2 & robot1 & Hloop & Hk).
    destruct (close_eq _TASK_PREFIX w2 robot1) as (w3 & Hclose & _ & _ & _ & Hclosed & _).
    exists robot, w1, robot1, w2, (set__lock false robot1), w3.
    repeat (split; [done|]).
    rewrite Hclosed, (kp_should_close _ _ _ _ Hk), (cn_should_close _ _ _ _ _ _ _ _ Hc).
    rewrite (kp_channel _ _ _ _ Hk), (cn_channel _ _ _ _ _ _ _ _ Hc). set_solver.
  - destruct (with_channel_runs _TASK_PREFIX channel options names w)
      as (robot & w1 & Hmake & Hc).
    destruct (refresh_every_runs responses w1 robot (cn_wf _ _ _ _ _ _ _ _ Hc))
      as (w2 & robot1 & Hloop & Hk).
    destruct (close_eq _TASK_PREFIX w2 robot1) as (w3 & Hclose & _ & _ & _ & Hclosed & _).
    exists robot, w1, robot1, w2, (set__lock false robot1), w3.
    repeat (split; [done|]).
    rewrite Hclosed, (kp_should_close _ _ _ _ Hk), (cn_should_close _ _ _ _ _ _ _ _ Hc).
    by rewrite (kp_closed _ _ _ _ Hk), (cn_closed _ _ _ _ _ _ _ _ Hc).
Qed.


End lifecycle_claims.

Lemma construction_propagates_refresh_failure_witness :
  (∃ w', with_channel "viam" 7 {| refresh_interval := 5; dial_options := None |}
           (inl (RpcError "unavailable")) world0 = (Raise (RpcError "unavailable"), w') ∧
         tasks w' = tasks world0) ∧
  (∃ w', at_address "viam" "robot.local" {| refresh_interval := 5; dial_options := None |}
           (inr 7) (inl (RpcError "unavailable")) world0 = (Raise (RpcError "unavailable"), w') ∧
         tasks w' = tasks world0).
Proof. apply construction_propagates_refresh_failure. reflexivity. Defined.


(** Discovery of a gripper when no factory is registered for grippers: the
    refresh returns, a warning is logged, the manager stays empty, and
    [get_component] on the gripper raises not-found. *)
Example refresh_gripper_without_factory :
  let '(r, (w, self)) := refresh (inr [g1]) (world1, client1) in
  r = Return tt ∧
  trace w = [EvRelease; EvAcquire; warning g1] ∧
  components (_manager self) = ∅ ∧
  (get_component g1 (w, self)).1 = Raise (ComponentNotFoundError "component" "g1").
Proof. vm_compute. repeat split; reflexivity. Qed.

(** Closing a dialled client with a background refresh: its task is
    cancelled and its channel is closed. *)
Example close_dialled_client :
  let options := {| refresh_interval := 5; dial_options := None |} in
  match at_address "viam" "robot.local" options (inr 7) (inr discovered) world0 with
  | (Return robot, w) =>
      let '(r, (w', _)) := close "viam" (w, robot) in
      r = Return tt ∧ closed w' = {[7]} ∧
      (task_state <$> tasks w') = {[5 := Cancelled]}
  | _ => False
  end.
Proof. vm_compute. repeat split; reflexivity. Qed.

(** A refresh that discovers the same arm again, next to a changed service
    list, makes a new proxy for it: the dictionaries compare unequal although
    they hold the same names, and the new manager is installed. *)
Example refresh_same_names_new_proxies :
  let '(r, (_, self)) := refresh (inr [arm1; vision1]) (world2, client2) in
  r = Return tt ∧
  dom (components (_manager self)) = dom (components (_manager client2)) ∧
  mgr_id (_manager client2) = 2 ∧ mgr_id (_manager self) = 5.
Proof. vm_compute. repeat split; reflexivity. Qed.

(** * Further properties *)

(** ** What a refresh never touches *)

Lemma refresh_locked_changed w self names m w1 :
  names ≠ cached_names w self → _lock self = true →
  refresh_build (_channel self) names w = (Return m, w1) →
  refresh (inr names) (w, self) = (Deadlock, (w1, self)).
Proof.
  intros Hne Hlock Hbuild. unfold refresh. run.
  rewrite decide_False by done. rewrite Hbuild.
  unfold with_lock. by rewrite Hlock.
Qed.

(** X1: whatever the discovery call answers, whatever the state of the
    client and however the call ends, [refresh] leaves the tasks of the loop,
    the closed channels and the registry as they are, and keeps the channel,
    the ownership flag and the refresh task of the client. *)
Theorem refresh_frame response w self :
  ∃ o w' self',
    refresh response (w, self) = (o, (w', self')) ∧
    tasks w' = tasks w ∧ closed w' = closed w ∧ registry w' = registry w ∧
    _channel self' = _channel self ∧ _client self' = _client self ∧
    _should_close_channel self' = _should_close_channel self ∧
    _refresh_task self' = _refresh_task self.
Proof.
  destruct response as [e|names].
  - by exists (Raise e), w, self.
  - destruct (decide (names = cached_names w self)) as [->|Hne].
    + exists (Return tt), w, self. split; [apply refresh_same|done].
    + destruct (refresh_build_spec (_channel self) names w) as (m & w1 & Hbuild & Hpost).
      destruct Hpost. cbn in *. destruct (_lock self) eqn:Hlock.
      * exists Deadlock, w1, self. split; [by apply (refresh_locked_changed _ _ _ m)|done].
      * eexists _, _, _. split; [by apply refresh_changed|]. cbn. done.
Qed.

(** ** The invariant of the reachable states *)

Lemma wf_mono w w' self : wf w self → next_id w ≤ next_id w' → wf w' self.
Proof. intros [] ?. split; [done|lia|lia]. Qed.

Lemma sound_mono w w' self : sound w self → next_id w ≤ next_id w' → sound w' self.
Proof.
  intros [Hwf Hp] Hle. split; [exact (wf_mono _ _ _ Hwf Hle)|].
  intros n p Hnp. destruct (Hp n p Hnp) as (? & ? & ?). repeat split; [lia|done|done].
Qed.

Lemma sound_installed w self names m w1 :
  sound w self →
  refresh_build (_channel self) names w = (Return m, w1) →
  sound (installed names m w1 self).1 (installed names m w1 self).2.
Proof.
  intros [[Hlock Hnames Hmgr] Hp] Hbuild.
  destruct (refresh_build_spec (_channel self) names w) as (m' & w1' & Hbuild' & Hpost).
  rewrite Hbuild in Hbuild'. injection Hbuild' as <- <-.
  destruct Hpost. cbn in *. split.
  - split; cbn; [done|lia|]. destruct (components_ne m (_manager self)); lia.
  - cbn. intros n p Hnp. destruct (components_ne m (_manager self)).
    + destruct (post_proxy0 n p Hnp) as [Hin|(? & ? & ? & _)].
      * by rewrite lookup_empty in Hin.
      * repeat split; [lia|done|done].
    + destruct (Hp n p Hnp) as (? & ? & ?). repeat split; [lia|done|done].
Qed.

Lemma refresh_sound response w self o w' self' :
  sound w self → refresh response (w, self) = (o, (w', self')) → sound w' self'.
Proof.
  intros Hs Hrun. destruct response as [e|names].
  - rewrite refresh_failed in Hrun. by simplify_eq.
  - destruct (decide (names = cached_names w self)) as [->|Hne].
    + rewrite refresh_same in Hrun. by simplify_eq.
    + destruct (refresh_build_spec (_channel self) names w) as (m & w1 & Hbuild & Hpost).
      rewrite (refresh_changed _ _ _ m w1) in Hrun;
        [|done|by destruct Hs as [[] _]|done].
      injection Hrun as <- <- <-. by apply (sound_installed w).
Qed.

Lemma refresh_every_turn_sound response w self o w' self' :
  sound w self → _refresh_every_turn response (w, self) = (o, (w', self')) → sound w' self'.
Proof.
  intros Hs. unfold _refresh_every_turn, try_except.
  destruct (refresh response (w, self)) as [[[]|e|] [w1 self1]] eqn:Hrun;
    pose proof (refresh_sound _ _ _ _ _ _ Hs Hrun) as Hs1; run; intros Heq; simplify_eq;
    try done.
  eapply sound_mono; [exact Hs1|cbn; lia].
Qed.

Lemma refresh_every_sound responses : ∀ w self o w' self',
  sound w self → _refresh_every responses (w, self) = (o, (w', self')) → sound w' self'.
Proof.
  induction responses as [|response responses IH]; intros w self o w' self' Hs Hrun.
  - cbn in Hrun. unfold mret, M_ret in Hrun. by simplify_eq.
  - cbn [_refresh_every] in Hrun. unfold mbind, M_bind in Hrun.
    destruct (_refresh_every_turn response (w, self)) as [[[]|e|] [w1 self1]] eqn:Hturn;
      pose proof (refresh_every_turn_sound _ _ _ _ _ _ Hs Hturn) as Hs1.
    + by eapply IH.
    + by simplify_eq.
    + by simplify_eq.
Qed.

Lemma initial_sound channel w : sound (initial_world w) (initial_client channel w).
Proof. split; [apply initial_wf|]. intros n p Hnp. cbn in Hnp. by rewrite lookup_empty in Hnp. Qed.

Lemma sound_set_refresh_task w self t :
  sound w self → sound w (set__refresh_task t self).
Proof. intros [[] ?]. by split. Qed.

Lemma sound_set_should_close w self b :
  sound w self → sound w (set__should_close_channel b self).
Proof. intros [[] ?]. by split. Qed.

Section reachable.
Variable _TASK_PREFIX : string.

Lemma with_channel_sound channel options response w robot w' :
  with_channel _TASK_PREFIX channel options response w = (Return robot, w') →
  sound w' robot.
Proof.
  rewrite with_channel_eq.
  destruct (refresh response (initial_world w, initial_client channel w))
    as [[[]|e|] [w1 self1]] eqn:Hrun; [|done|done].
  pose proof (refresh_sound _ _ _ _ _ _ (initial_sound channel w) Hrun) as Hs.
  case_decide; intros Heq; simplify_eq; [|done].
  apply sound_set_refresh_task. eapply sound_mono; [exact Hs|cbn; lia].
Qed.

Lemma at_address_sound address options dialled response w robot w' :
  at_address _TASK_PREFIX address options dialled response w = (Return robot, w') →
  sound w' robot.
Proof.
  unfold at_address. destruct dialled as [e|channel]; [done|]. run.
  destruct (with_channel _TASK_PREFIX channel options response w) as [[robot1|e|] w1] eqn:Hmake;
    intros Heq; simplify_eq.
  apply sound_set_should_close. by eapply with_channel_sound.
Qed.

(** X2: a client that [with_channel] or [at_address] returned is in a sound
    state, and it stays so through any turns of the background loop: its lock
    is free, its list, its manager and every proxy are objects that exist,
    and every proxy of the manager is entered under its own name and bound
    to the channel of the client. *)
Theorem constructed_client_stays_sound address channel options names responses w :
  (∃ robot w1 robot' w2,
      with_channel _TASK_PREFIX channel options (inr names) w = (Return robot, w1) ∧
      _refresh_every responses (w1, robot) = (Return tt, (w2, robot')) ∧
      sound w1 robot ∧ sound w2 robot') ∧
  (∃ robot w1 robot' w2,
      at_address _TASK_PREFIX address options (inr channel) (inr names) w = (Return robot, w1) ∧
      _refresh_every responses (w1, robot) = (Return tt, (w2, robot')) ∧
      sound w1 robot ∧ sound w2 robot').
Proof.
  split.
  - destruct (with_channel_runs _TASK_PREFIX channel options names w)
      as (robot & w1 & Hmake & Hc).
    destruct (refresh_every_runs responses w1 robot (cn_wf _ _ _ _ _ _ _ _ Hc))
      as (w2 & robot' & Hloop & _).
    exists robot, w1, robot', w2. split; [done|]. split; [done|].
    pose proof (with_channel_sound _ _ _ _ _ _ Hmake) as Hs.
    split; [done|]. by eapply refresh_every_sound.
  - destruct (at_address_runs _TASK_PREFIX address channel options names w)
      as (robot & w1 & Hmake & Hc).
    destruct (refresh_every_runs responses w1 robot (cn_wf _ _ _ _ _ _ _ _ Hc))
      as (w2 & robot' & Hloop & _).
    exists robot, w1, robot', w2. split; [done|]. split; [done|].
    pose proof (at_address_sound _ _ _ _ _ _ _ Hmake) as Hs.
    split; [done|]. by eapply refresh_every_sound.
Qed.

End reachable.

(** ** The manager after a refresh *)

Lemma refresh_build_post ch names w m w1 :
  refresh_build ch names w = (Return m, w1) →
  loop_post ch names {| mgr_id := next_id w; components := ∅ |}
            (set_next_id (S (next_id w)) w) m w1.
Proof.
  intros Hbuild. destruct (refresh_build_spec ch names w) as (m' & w1' & Hbuild' & Hpost).
  rewrite Hbuild in Hbuild'. by injection Hbuild' as <- <-.
Qed.

Lemma built_lookup ch names w m w1 n :
  refresh_build ch names w = (Return m, w1) →
  is_Some (components m !! n) ↔ implemented (registry w) names n.
Proof.
  intros Hpost%refresh_build_post. rewrite (post_dom _ _ _ _ _ _ Hpost). cbn.
  rewrite lookup_empty. unfold implemented. split; [|by right].
  by intros [[? [=]]|?].
Qed.

Lemma built_fresh ch names w m w1 n p :
  refresh_build ch names w = (Return m, w1) →
  components m !! n = Some p → next_id w < proxy_id p.
Proof.
  intros Hpost%refresh_build_post Hnp.
  destruct (post_proxy _ _ _ _ _ _ Hpost n p Hnp) as [Hin|(_ & _ & Hid & _)].
  - cbn in Hin. by rewrite lookup_empty in Hin.
  - cbn in Hid. lia.
Qed.

Lemma components_ne_false m1 m2 :
  components_ne m1 m2 = false ↔ (proxy_id <$> components m1) = (proxy_id <$> components m2).
Proof.
  unfold components_ne. case_bool_decide as Hd; split; done.
Qed.

Lemma same_ids_lookup m1 m2 n :
  components_ne m1 m2 = false →
  is_Some (components m1 !! n) ↔ is_Some (components m2 !! n).
Proof.
  intros Heq%components_ne_false. apply (f_equal (λ m, m !! n)) in Heq.
  rewrite !lookup_fmap in Heq.
  destruct (components m1 !! n), (components m2 !! n); cbn in Heq; try done.
Qed.

(** With proxies that are compared by identity, a manager built by a refresh
    equals the installed one only when both are empty. *)
Lemma built_equal_iff_empty w self names m w1 :
  sound w self →
  refresh_build (_channel self) names w = (Return m, w1) →
  components_ne m (_manager self) = false ↔
  components (_manager self) = ∅ ∧ ¬ ∃ n, implemented (registry w) names n.
Proof.
  intros [_ Hp] Hbuild. split.
  - intros Heq.
    assert (Hempty : components m = ∅).
    { apply map_empty. intros n. destruct (components m !! n) as [p|] eqn:Hnp; [|done].
      pose proof (built_fresh _ _ _ _ _ _ _ Hbuild Hnp) as Hfresh.
      pose proof Heq as Hids%components_ne_false.
      apply (f_equal (λ m, m !! n)) in Hids. rewrite !lookup_fmap, Hnp in Hids. cbn in Hids.
      destruct (components (_manager self) !! n) as [q|] eqn:Hq; [|done].
      cbn in Hids. destruct (Hp n q Hq) as (Hlt & _). simplify_eq. lia. }
    split.
    + apply map_empty. intros n.
      destruct (components (_manager self) !! n) eqn:Hq; [|done].
      assert (is_Some (components m !! n)) as [? Hsome].
      { apply (same_ids_lookup _ _ n Heq). by eexists. }
      by rewrite Hempty, lookup_empty in Hsome.
    + intros [n Hn]. apply (built_lookup _ _ _ _ _ n Hbuild) in Hn as [? Hsome].
      by rewrite Hempty, lookup_empty in Hsome.
  - intros [Hold Hnone]. apply components_ne_false. rewrite Hold.
    assert (Hempty : components m = ∅).
    { apply map_empty. intros n. destruct (components m !! n) eqn:Hnp; [|done].
      destruct Hnone. exists n. apply (built_lookup _ _ _ _ _ n Hbuild). by eexists. }
    by rewrite Hempty.
Qed.

(** X3: on a sound client, a refresh with a changed list keeps the installed
    manager exactly when that manager is empty and no discovered name is a
    component with a registered factory; in every other case the manager that
    the refresh built is installed, because its proxies are new objects. *)
Theorem refresh_keeps_manager_iff_both_empty w self names :
  sound w self → names ≠ cached_names w self →
  ∃ manager w1 w' self',
    refresh_build (_channel self) names w = (Return manager, w1) ∧
    refresh (inr names) (w, self) = (Return tt, (w', self')) ∧
    (_manager self' = _manager self ↔
       components (_manager self) = ∅ ∧ ¬ ∃ n, implemented (registry w) names n) ∧
    (_manager self' = manager ↔
       ¬ (components (_manager self) = ∅ ∧ ¬ ∃ n, implemented (registry w) names n)).
Proof.
  intros Hs Hne. pose proof Hs as [[Hlock _ Hmgr] _].
  destruct (refresh_build_spec (_channel self) names w) as (m & w1 & Hbuild & Hpost).
  exists m, w1, (installed names m w1 self).1, (installed names m w1 self).2.
  split; [done|]. split; [by apply refresh_changed|].
  rewrite <-(built_equal_iff_empty w self names m w1 Hs Hbuild).
  assert (Hfresh : m ≠ _manager self).
  { intros Heq. apply (f_equal mgr_id) in Heq. rewrite (post_mgr_id _ _ _ _ _ _ Hpost) in Heq.
    cbn in Heq. lia. }
  cbn. destruct (components_ne m (_manager self)); split; split; try done.
  all: intros Hno; by destruct Hno.
Qed.

(** X4: after a refresh with a changed list on a sound client,
    [get_component] on a component name returns a proxy exactly when some
    discovered resource of that name is a component, not a remote, with a
    registered factory; the proxy carries that name and the channel of the
    client; otherwise [ComponentNotFoundError] is raised. *)
Theorem get_component_after_refresh w self names name :
  sound w self → names ≠ cached_names w self → rn_type name = "component" →
  ∃ w' self',
    refresh (inr names) (w, self) = (Return tt, (w', self')) ∧
    (implemented (registry w) names (rn_name name) →
       ∃ p s, get_component name (w', self') = (Return p, s) ∧
              proxy_name p = rn_name name ∧ proxy_channel p = _channel self) ∧
    (¬ implemented (registry w) names (rn_name name) →
       (get_component name (w', self')).1 =
         Raise (ComponentNotFoundError "component" (rn_name name))).
Proof.
  intros Hs Hne Ht. pose proof Hs as [[Hlock _ _] _].
  destruct (refresh_build_spec (_channel self) names w) as (m & w1 & Hbuild & Hpost).
  exists (installed names m w1 self).1, (installed names m w1 self).2.
  split; [by apply refresh_changed|].
  pose proof (sound_installed w self names m w1 Hs Hbuild) as [_ Hp'].
  assert (Hdom : is_Some (components (_manager (installed names m w1 self).2) !! rn_name name)
                 ↔ implemented (registry w) names (rn_name name)).
  { rewrite <-(built_lookup _ _ _ _ _ (rn_name name) Hbuild). cbn.
    destruct (components_ne m (_manager self)) eqn:Hcmp; [done|].
    symmetry. by apply same_ids_lookup. }
  rewrite get_component_locked by done. split.
  - intros [p Hnp]%Hdom. destruct (Hp' _ _ Hnp) as (_ & ? & ?).
    exists p. eexists. rewrite Hnp. by repeat split.
  - intros Hno. cbn [fst].
    destruct (components (_manager (installed names m w1 self).2) !! rn_name name) eqn:Hnp;
      [|done].
    destruct Hno. apply Hdom. by eexists.
Qed.

Lemma refresh_keeps_manager_iff_both_empty_witness :
  ∃ manager w1 w' self',
    refresh_build (_channel client1) discovered world1 = (Return manager, w1) ∧
    refresh (inr discovered) (world1, client1) = (Return tt, (w', self')) ∧
    (_manager self' = _manager client1 ↔
       components (_manager client1) = ∅ ∧
       ¬ ∃ n, implemented (registry world1) discovered n) ∧
    (_manager self' = manager ↔
       ¬ (components (_manager client1) = ∅ ∧
          ¬ ∃ n, implemented (registry world1) discovered n)).
Proof.
  apply (refresh_keeps_manager_iff_both_empty world1 client1 discovered).
  - apply initial_sound.
  - vm_compute. discriminate.
Defined.

Lemma get_component_after_refresh_witness :
  ∃ w' self',
    refresh (inr discovered) (world1, client1) = (Return tt, (w', self')) ∧
    (implemented (registry world1) discovered (rn_name arm1) →
       ∃ p s, get_component arm1 (w', self') = (Return p, s) ∧
              proxy_name p = rn_name arm1 ∧ proxy_channel p = _channel client1) ∧
    (¬ implemented (registry world1) discovered (rn_name arm1) →
       (get_component arm1 (w', self')).1 =
         Raise (ComponentNotFoundError "component" (rn_name arm1))).
Proof.
  apply (get_component_after_refresh world1 client1 discovered arm1).
  - apply initial_sound.
  - vm_compute. discriminate.
  - reflexivity.
Defined.

(** The arm of the discovered list is implemented in the registry of the
    example world, the gripper is not. *)
Example arm1_implemented_g1_not :
  implemented (registry world1) discovered "arm1" ∧
  ¬ implemented (registry world1) discovered "g1".
Proof.
  split.
  - exists arm1. repeat split; [set_solver|done|]. by eexists.
  - intros (rn & Hin & [_ _] & Hname & [f Hf]).
    unfold discovered in Hin. set_unfold.
    destruct_or!; simplify_eq.
Qed.

(** ** The background loop and its log *)








(** ** Accessors *)

(** X6: [get_service] does not keep the service clients that it makes: on a
    client whose lock is free and that offers the service, two calls in a row
    both return, with two different objects bound to the same channel. *)
Theorem get_service_makes_new_client w self service_type :
  _lock self = false → offers (cached_names w self) service_type →
  ∃ svc1 w1 svc2 w2,
    get_service service_type (w, self) = (Return svc1, (w1, self)) ∧
    get_service service_type (w1, self) = (Return svc2, (w2, self)) ∧
    svc_id svc1 ≠ svc_id svc2 ∧
    svc_channel svc1 = _channel self ∧ svc_channel svc2 = _channel self ∧
    svc_type svc1 = st_name service_type ∧ svc_type svc2 = st_name service_type.
Proof.
  intros Hlock Hin. eexists _, _, _, _.
  split; [by apply get_service_found|].
  split; [by apply get_service_found|].
  cbn. repeat split; lia.
Qed.

Lemma get_service_makes_new_client_witness :
  ∃ svc1 w1 svc2 w2,
    get_service {| st_name := "vision" |} (world2, client2) = (Return svc1, (w1, client2)) ∧
    get_service {| st_name := "vision" |} (w1, client2) = (Return svc2, (w2, client2)) ∧
    svc_id svc1 ≠ svc_id svc2 ∧
    svc_channel svc1 = _channel client2 ∧ svc_channel svc2 = _channel client2 ∧
    svc_type svc1 = "vision" ∧ svc_type svc2 = "vision".
Proof.
  apply (get_service_makes_new_client world2 client2 {| st_name := "vision" |}).
  - reflexivity.
  - exists vision1. repeat split. vm_compute. set_solver.
Defined.

(** ** The lock, teardown and the context manager *)

Lemma with_lock_blocked {A} (body : Meth A) w self :
  _lock self = true → with_lock body (w, self) = (Deadlock, (w, self)).
Proof. intros Hlock. unfold with_lock. by rewrite Hlock. Qed.

Lemma after_close_idemp prefix k :
  after_close prefix (after_close prefix k) = after_close prefix k.
Proof. unfold after_close, viam_task. destruct (String.prefix prefix (task_name k)) eqn:Hp.
  - cbn. by rewrite Hp.
  - by rewrite Hp.
Qed.

Section teardown_properties.
Variable _TASK_PREFIX : string.

(** X7: while the lock of the client is held, [get_service],
    [resource_names] and [get_component] on a component name block; [close]
    does not block, and after it the same calls no longer block. *)
Theorem close_unblocks_accessors w self service_type name :
  _lock self = true → rn_type name = "component" →
  (get_service service_type (w, self)).1 = Deadlock ∧
  (resource_names (w, self)).1 = Deadlock ∧
  (get_component name (w, self)).1 = Deadlock ∧
  ∃ w' self',
    close _TASK_PREFIX (w, self) = (Return tt, (w', self')) ∧
    (get_service service_type (w', self')).1 ≠ Deadlock ∧
    (resource_names (w', self')).1 ≠ Deadlock ∧
    (get_component name (w', self')).1 ≠ Deadlock.
Proof.
  intros Hlock Ht. split; [|split; [|split]].
  - unfold get_service. by rewrite with_lock_blocked.
  - unfold resource_names. by rewrite with_lock_blocked.
  - unfold get_component. rewrite decide_False by naive_solver. by rewrite with_lock_blocked.
  - destruct (close_eq _TASK_PREFIX w self) as (w' & Hclose & _).
    exists w', (set__lock false self). split; [done|]. split; [|split].
    + destruct (offers_or_not (cached_names w' (set__lock false self)) service_type).
      * by rewrite get_service_found.
      * by rewrite get_service_missing.
    + by rewrite resource_names_copy.
    + rewrite get_component_locked by done. cbn.
      by destruct (components (_manager self) !! rn_name name).
Qed.

(** X8: closing a client a second time changes nothing more: the second
    [close] returns, and the tasks, the closed channels, the lists and the
    client are as the first [close] left them. *)
Theorem close_twice w self :
  ∃ w1 self1 w2,
    close _TASK_PREFIX (w, self) = (Return tt, (w1, self1)) ∧
    close _TASK_PREFIX (w1, self1) = (Return tt, (w2, self1)) ∧
    tasks w2 = tasks w1 ∧ closed w2 = closed w1 ∧ lists w2 = lists w1 ∧
    next_id w2 = next_id w1 ∧ registry w2 = registry w1.
Proof.
  destruct (close_eq _TASK_PREFIX w self) as (w1 & Hclose1 & _ & _ & _ & Hclosed1 & Ht1).
  destruct (close_eq _TASK_PREFIX w1 (set__lock false self))
    as (w2 & Hclose2 & ? & ? & ? & Hclosed2 & Ht2).
  exists w1, (set__lock false self), w2. split; [done|]. split; [done|].
  split; [|split; [|done]].
  - apply map_eq. intros i. rewrite Ht2, Ht1.
    destruct (tasks w !! i); cbn; [|done]. by rewrite after_close_idemp.
  - rewrite Hclosed2. cbn. destruct (_should_close_channel self); [|done].
    rewrite Hclosed1. set_solver.
Qed.

(** X9: [with_channel] starts the background refresh exactly when the
    refresh interval is positive: it then adds one pending task whose name
    starts with the task prefix, under an identity that is new, and with an
    interval of zero or less it leaves the tasks of the loop as they are. *)
Theorem with_channel_task_iff_positive_interval channel options names w :
  ∃ robot w',
    with_channel _TASK_PREFIX channel options (inr names) w = (Return robot, w') ∧
    ((refresh_interval options > 0)%Z →
       ∃ t task, _refresh_task robot = Some t ∧ next_id w ≤ t < next_id w' ∧
                 tasks w' = <[t := task]> (tasks w) ∧
                 task_state task = Pending ∧
                 String.prefix _TASK_PREFIX (task_name task) = true) ∧
    ((refresh_interval options ≤ 0)%Z →
       _refresh_task robot = None ∧ tasks w' = tasks w).
Proof.
  destruct (refresh_runs (inr names) _ _ (initial_wf channel w)) as (w1 & self & Hrun & Hpost).
  destruct Hpost as [_ _ _ Htask _ Htasks _ Hle _]. cbn in Htask, Htasks, Hle.
  rewrite with_channel_eq, Hrun. case_decide as Hpos.
  - eexists _, _. split; [done|]. split; [|lia].
    intros _. exists (next_id w1), (refresh_task _TASK_PREFIX). cbn.
    split; [done|]. split; [lia|]. split; [by rewrite Htasks|]. split; [done|].
    apply prefix_app.
  - eexists _, _. split; [done|]. split; [done|]. intros _. by rewrite Htask.
Qed.

(** X10: when [at_address] fails, it returns no client and closes nothing:
    if the dial raises, the world is untouched, and if the first refresh
    raises, the channel that was dialled is not closed. *)
Theorem at_address_failure_closes_nothing address options channel e response w :
  at_address _TASK_PREFIX address options (inl e) response w = (Raise e, w) ∧
  ∃ w', at_address _TASK_PREFIX address options (inr channel) (inl e) w = (Raise e, w') ∧
        closed w' = closed w ∧ tasks w' = tasks w.
Proof.
  split; [done|]. exists (initial_world w). split; [apply at_address_fails|done].
Qed.

(** X11: leaving an [async with] block on a client runs [close], whether
    the body returned or raised: the outcome of the block is that of the
    body, the lock is released, every task of the loop whose name starts with
    the prefix is in the state cancelled, also for a client made by
    [with_channel], every other task is as the body left it, and the channel
    is closed exactly when the client owns it. *)
Theorem async_with_closes {A} (body : Meth A) w self o wb selfb :
  body (w, self) = (o, (wb, selfb)) → o ≠ Deadlock →
  ∃ w' self',
    async_with _TASK_PREFIX body (w, self) = (o, (w', self')) ∧
    self' = set__lock false selfb ∧ _lock self' = false ∧
    closed w' = (if _should_close_channel selfb then {[_channel selfb]} ∪ closed wb
                 else closed wb) ∧
    (∀ i k, tasks wb !! i = Some k → String.prefix _TASK_PREFIX (task_name k) = true →
            tasks w' !! i = Some {| task_name := task_name k; task_state := Cancelled |}) ∧
    (∀ i k, tasks wb !! i = Some k → String.prefix _TASK_PREFIX (task_name k) = false →
            tasks w' !! i = Some k) ∧
    (∀ i, tasks wb !! i = None → tasks w' !! i = None).
Proof.
  intros Hbody Hno.
  destruct (close_eq _TASK_PREFIX wb selfb) as (w' & Hclose & _ & _ & _ & Hclosed & Ht).
  exists w', (set__lock false selfb). split; [|split; [done|split; [done|split; [done|]]]].
  - unfold async_with, __aenter__, __aexit__. run. rewrite Hbody.
    destruct o as [a|e|]; [| |done]; by rewrite Hclose.
  - split; [|split].
    + intros i k Hk Hp. rewrite Ht, Hk. cbn. unfold after_close, viam_task. by rewrite Hp.
    + intros i k Hk Hp. rewrite Ht, Hk. cbn. unfold after_close, viam_task. by rewrite Hp.
    + intros i Hk. by rewrite Ht, Hk.
Qed.

End teardown_properties.

Lemma close_unblocks_accessors_witness :
  (get_service {| st_name := "vision" |} (world2, set__lock true client2)).1 = Deadlock ∧
  (resource_names (world2, set__lock true client2)).1 = Deadlock ∧
  (get_component arm1 (world2, set__lock true client2)).1 = Deadlock ∧
  ∃ w' self',
    close "viam" (world2, set__lock true client2) = (Return tt, (w', self')) ∧
    (get_service {| st_name := "vision" |} (w', self')).1 ≠ Deadlock ∧
    (resource_names (w', self')).1 ≠ Deadlock ∧
    (get_component arm1 (w', self')).1 ≠ Deadlock.
Proof. apply (close_unblocks_accessors "viam"); reflexivity. Defined.

Lemma with_channel_task_iff_positive_interval_witness :
  ∃ t task robot w',
    with_channel "viam" 7 {| refresh_interval := 5; dial_options := None |}
      (inr discovered) world0 = (Return robot, w') ∧
    _refresh_task robot = Some t ∧ tasks w' = <[t := task]> (tasks world0) ∧
    task_state task = Pending ∧ String.prefix "viam" (task_name task) = true.
Proof.
  destruct (with_channel_task_iff_positive_interval "viam" 7
              {| refresh_interval := 5; dial_options := None |} discovered world0)
    as (robot & w' & Hrun & Hpos & _).
  destruct Hpos as (t & task & ? & _ & ? & ? & ?); [reflexivity|].
  by exists t, task, robot, w'.
Defined.

(** A block on a dialled client whose body fails with not-found, in a loop
    with a pending refresh task and a pending task of the application. *)
Lemma async_with_closes_witness :
  ∃ w' self',
    async_with "viam" (get_component g1) (world3, set__should_close_channel true client2)
      = (Raise (ComponentNotFoundError "component" "g1"), (w', self')) ∧
    _lock self' = false ∧
    7 ∈ closed w' ∧
    tasks w' !! 9 = Some {| task_name := "viam-robot_refresh_metadata";
                            task_state := Cancelled |} ∧
    tasks w' !! 10 = Some {| task_name := "app-main"; task_state := Pending |} ∧
    tasks w' !! 11 = None.
Proof.
  destruct (async_with_closes "viam" (get_component g1) world3
              (set__should_close_channel true client2)
              (Raise (ComponentNotFoundError "component" "g1"))
              (set_trace (EvRelease :: EvAcquire :: trace world3) world3)
              (set__should_close_channel true client2))
    as (w' & self' & Hrun & _ & Hlock & Hclosed & Hviam & Hother & Hnone).
  - vm_compute. reflexivity.
  - discriminate.
  - exists w', self'. split; [exact Hrun|]. split; [exact Hlock|]. split; [|split; [|split]].
    + rewrite Hclosed. cbn. apply elem_of_union_l, elem_of_singleton. reflexivity.
    + apply (Hviam 9 {| task_name := "viam-robot_refresh_metadata"; task_state := Pending |});
        reflexivity.
    + apply (Hother 10 {| task_name := "app-main"; task_state := Pending |}); reflexivity.
    + apply Hnone. reflexivity.
Defined.

(** X12: on a client whose lock is free, the three accessors leave the
    client as it is, with its lock free again, also when they raise; they
    change no task and no closed channel, [get_component] and [get_service]
    change no list, and [resource_names] changes no list but the new one
    that it returns. *)
Theorem accessors_keep_client w self name service_type :
  _lock self = false → rn_type name = "component" →
  (∃ o w', get_component name (w, self) = (o, (w', self)) ∧ o ≠ Deadlock ∧
           lists w' = lists w ∧ tasks w' = tasks w ∧ closed w' = closed w) ∧
  (∃ o w', get_service service_type (w, self) = (o, (w', self)) ∧ o ≠ Deadlock ∧
           lists w' = lists w ∧ tasks w' = tasks w ∧ closed w' = closed w) ∧
  (∃ r w', resource_names (w, self) = (Return r, (w', self)) ∧
           (∀ r', r' ≠ r → list_at w' r' = list_at w r') ∧
           tasks w' = tasks w ∧ closed w' = closed w).
Proof.
  intros Hlock Ht. split; [|split].
  - eexists _, _. split; [by apply get_component_locked|]. split; [|done].
    by destruct (components (_manager self) !! rn_name name).
  - destruct (offers_or_not (cached_names w self) service_type).
    + eexists _, _. split; [by apply get_service_found|]. done.
    + eexists _, _. split; [by apply get_service_missing|]. done.
  - eexists _, _. split; [by apply resource_names_copy|]. split; [|done].
    intros r' Hne. by apply list_at_copied_old.
Qed.

Lemma accessors_keep_client_witness :
  (∃ o w', get_component g1 (world2, client2) = (o, (w', client2)) ∧ o ≠ Deadlock ∧
           lists w' = lists world2 ∧ tasks w' = tasks world2 ∧ closed w' = closed world2) ∧
  (∃ o w', get_service {| st_name := "motion" |} (world2, client2) = (o, (w', client2)) ∧
           o ≠ Deadlock ∧
           lists w' = lists world2 ∧ tasks w' = tasks world2 ∧ closed w' = closed world2) ∧
  (∃ r w', resource_names (world2, client2) = (Return r, (w', client2)) ∧
           (∀ r', r' ≠ r → list_at w' r' = list_at world2 r') ∧
           tasks w' = tasks world2 ∧ closed w' = closed world2).
Proof. apply (accessors_keep_client world2 client2 g1 {| st_name := "motion" |}); reflexivity. Defined.
